(** * ssh-tpm-agent: the agent service core (agent.go)

    A shallow embedding of [agent.go].  Every method of [*Agent] is a
    program in a small free monad over the effects the Go code performs
    (mutex, environment, file system, TPM signing, listener, quit channel,
    wait group, log).  One handler gives each effect its meaning on a
    [World]; programs are run sequentially by [run] and interleaved, one
    effect at a time, by the goroutine scheduler [sched]. *)

From Stdlib Require Import ZArith List String Bool Lia.
From Stdlib.Strings Require Import Byte.
Import ListNotations.
Open Scope string_scope.

Set Implicit Arguments.

(** ** Go values *)

Definition bytes := list byte.

(** [bytes.Equal]: same length and same bytes. *)
Fixpoint bytes_Equal (a b : bytes) : bool :=
  match a, b with
  | [], [] => true
  | x :: a', y :: b' => Byte.eqb x y && bytes_Equal a' b'
  | _, _ => false
  end.

(** A Go [error] value: its message, and what [Temporary()] answers when the
    dynamic type has that method ([None] when it has not). *)
Record error := mkError { err_msg : string; err_temporary : option bool }.

(** [errors.New] and [fmt.Errorf] without a wrapped error. *)
Definition errors_New (s : string) : error := mkError s None.

(** [fmt.Errorf(prefix ++ "%w", err)]. *)
Definition Errorf_w (prefix : string) (e : error) : error :=
  mkError (prefix ++ err_msg e) None.

(** A Go result pair [(T, error)]. *)
Inductive result (A : Type) : Type :=
| Ok (a : A)
| Err (e : error).
Arguments Ok {A} a.
Arguments Err {A} e.

(** [ssh.PublicKey], through the two methods the agent calls on it. *)
Record PublicKey := mkPublicKey { pk_Type : string; pk_Marshal : bytes }.

(** [agent.Key]. *)
Record AgentKey := mkAgentKey { Format : string; Blob : bytes; Comment : string }.

(** [agent.SignatureFlags] is a [uint32]. *)
Definition SignatureFlags := Z.

(** Result of one iteration of a [for] loop. *)
Inductive ctl := Continue | Break.

(** ** External collaborators

    The key file parser, the TPM signer and the ssh library are not part of
    [agent.go]; the agent is verified against their interface. *)
Class Externals := {
  Key : Type;            (* *Key, the deserialized TPM key *)
  TPMFetch : Type;       (* func() transport.TPMCloser *)
  TPMSigner : Type;      (* what NewTPMSigner returns (a crypto.Signer) *)
  Signer : Type;         (* ssh.Signer, also an ssh.AlgorithmSigner *)
  Signature : Type;      (* *ssh.Signature *)
  Device : Type;         (* state of the TPM and of rand.Reader *)
  AddedKey : Type;       (* agent.AddedKey *)
  path_Join : string -> string -> string;
  UnmarshalKey : bytes -> result Key;
  SSHPublicKey : Key -> result PublicKey;
  NewTPMSigner : Key -> TPMFetch -> TPMSigner;
  NewSignerFromSigner : TPMSigner -> result Signer;
  Signer_PublicKey : Signer -> PublicKey;
  SignWithAlgorithm :
    Signer -> Device -> bytes -> string -> result Signature * Device
}.

(** The requests a client sends over one connection, as the protocol
    dispatcher [agent.ServeAgent] decodes them, and how the stream ends. *)
Inductive request `{Externals} :=
| ReqList
| ReqSigners
| ReqSign (key : PublicKey) (data : bytes)
| ReqSignWithFlags (key : PublicKey) (data : bytes) (flags : SignatureFlags)
| ReqAdd (key : AddedKey)
| ReqRemove (key : PublicKey)
| ReqRemoveAll
| ReqLock (passphrase : bytes)
| ReqUnlock (passphrase : bytes)
| ReqExtension (extensionType : string) (contents : bytes).

(** [net.Conn]: the requests read from it, then the error that ends
    [ServeAgent] ([io.EOF] on a clean end of stream). *)
Record Conn `{Externals} := mkConn { conn_requests : list request; conn_end : error }.

Definition io_EOF : error := errors_New "EOF".

(** Go compares [err != io.EOF] by identity; messages stand for identity. *)
Definition is_EOF (e : error) : bool := String.eqb (err_msg e) "EOF".

Section AgentModel.
Context `{Ext : Externals}.

(** ** The Agent and its world *)

(** [net.Listener]: closed or not, and the results the next calls of
    [Accept] will produce while it is open. *)
Record Listener := mkListener {
  l_closed : bool;
  l_pending : list (result Conn)
}.

(** [type Agent struct]: [mu], [tpm], [listener], [quit], [wg].  [mu] is
    [true] while locked, [quit] is [true] once the channel is closed. *)
Record Agent := mkAgent {
  mu : bool;
  tpm : TPMFetch;
  listener : Listener;
  quit : bool;
  wg : Z
}.

(** What the process writes or waits for, in order. *)
Inductive event :=
| EvLog (msg : string)          (* log.Println *)
| EvPrint (msg : string)        (* fmt.Println *)
| EvSleep (nanoseconds : Z).    (* time.Sleep *)

(** Goroutines started by a [go] statement of [agent.go]. *)
Inductive gofn :=
| GoServe                       (* go a.serve() *)
| GoServeConn (c : Conn)        (* go func() { a.serveConn(c); a.wg.Done() }() *)
| GoSignalLoop.                 (* go func() { for range c { a.Stop() } }() *)

Record World := mkWorld {
  agent : Agent;
  env : string -> option string;        (* os.LookupEnv *)
  home : result string;                 (* os.UserHomeDir *)
  files : string -> result bytes;       (* os.ReadFile *)
  device : Device;
  sighup : nat;                         (* SIGHUPs waiting in the channel c *)
  started : list gofn;                  (* go statements executed, newest first *)
  out : list event                      (* newest first *)
}.

Definition set_agent (w : World) (a : Agent) : World :=
  mkWorld a (env w) (home w) (files w) (device w) (sighup w) (started w) (out w).
Definition set_device (w : World) (d : Device) : World :=
  mkWorld (agent w) (env w) (home w) (files w) d (sighup w) (started w) (out w).
Definition set_sighup (w : World) (n : nat) : World :=
  mkWorld (agent w) (env w) (home w) (files w) (device w) n (started w) (out w).
Definition add_started (w : World) (g : gofn) : World :=
  mkWorld (agent w) (env w) (home w) (files w) (device w) (sighup w)
          (g :: started w) (out w).
Definition emit (w : World) (e : event) : World :=
  mkWorld (agent w) (env w) (home w) (files w) (device w) (sighup w)
          (started w) (e :: out w).

Definition set_mu (a : Agent) (b : bool) : Agent :=
  mkAgent b (tpm a) (listener a) (quit a) (wg a).
Definition set_listener (a : Agent) (l : Listener) : Agent :=
  mkAgent (mu a) (tpm a) l (quit a) (wg a).
Definition set_quit (a : Agent) (b : bool) : Agent :=
  mkAgent (mu a) (tpm a) (listener a) b (wg a).
Definition set_wg (a : Agent) (n : Z) : Agent :=
  mkAgent (mu a) (tpm a) (listener a) (quit a) n.

(** ** Effects *)

Inductive eff : Type -> Type :=
| MuLock : eff unit                                  (* a.mu.Lock() *)
| MuUnlock : eff unit                                (* a.mu.Unlock() *)
| LookupEnv (name : string) : eff (option string)    (* os.LookupEnv *)
| UserHomeDir : eff (result string)                  (* os.UserHomeDir *)
| ReadFile (name : string) : eff (result bytes)      (* os.ReadFile *)
| GetTPM : eff TPMFetch                              (* a.tpm *)
| TpmSign (s : Signer) (data : bytes) (algo : string)
    : eff (result Signature)                         (* s.SignWithAlgorithm(rand.Reader, ..) *)
| CloseQuit : eff unit                               (* close(a.quit) *)
| QuitReady : eff bool                               (* select { case <-a.quit: default: } *)
| ListenerClose : eff unit                           (* a.listener.Close() *)
| ListenerAccept : eff (result Conn)                 (* a.listener.Accept() *)
| WgAdd (delta : Z) : eff unit                       (* a.wg.Add *)
| WgWait : eff unit                                  (* a.wg.Wait() *)
| RecvSignal : eff unit                              (* one receive of: for range c *)
| LogPrintln (msg : string) : eff unit
| FmtPrintln (msg : string) : eff unit
| Sleep (nanoseconds : Z) : eff unit.                (* time.Sleep *)

(** Programs: return, panic, [log.Fatalln] (which exits the process), a
    [go] statement, or an effect followed by the rest. *)
Inductive prog (A : Type) : Type :=
| Ret (a : A)
| Panic (msg : string)
| Fatalln (msg : string)
| Go (g : gofn) (k : prog A)
| Vis (X : Type) (e : eff X) (k : X -> prog A).
Arguments Ret {A} a.
Arguments Panic {A} msg.
Arguments Fatalln {A} msg.
Arguments Go {A} g k.
Arguments Vis {A X} e k.

Fixpoint bind {A B : Type} (p : prog A) (f : A -> prog B) : prog B :=
  match p with
  | Ret a => f a
  | Panic m => Panic m
  | Fatalln m => Fatalln m
  | Go g k => Go g (bind k f)
  | Vis e k => Vis e (fun x => bind (k x) f)
  end.

Definition trigger {X : Type} (e : eff X) : prog X := Vis e Ret.

(** [defer cleanup()]: the cleanup runs when the body returns and when it
    calls [panic], and not when the process exits through [log.Fatalln].
    (No effect under a [defer] of [agent.go] can panic in the runtime.) *)
Fixpoint defer {A : Type} (cleanup : eff unit) (body : prog A) : prog A :=
  match body with
  | Ret a => Vis cleanup (fun _ => Ret a)
  | Panic m => Vis cleanup (fun _ => Panic m)
  | Fatalln m => Fatalln m
  | Go g k => Go g (defer cleanup k)
  | Vis e k => Vis e (fun x => defer cleanup (k x))
  end.

End AgentModel.

Arguments Ret {Ext A} a.
Arguments Panic {Ext A} msg.
Arguments Fatalln {Ext A} msg.
Arguments Go {Ext A} g k.
Arguments Vis {Ext A X} e k.

Declare Scope prog_scope.
Delimit Scope prog_scope with prog.
Notation "x <- p ;; q" := (bind p (fun x => q))
  (at level 61, p at next level, right associativity) : prog_scope.
Notation "p ;;; q" := (bind p (fun _ => q))
  (at level 61, right associativity) : prog_scope.

Open Scope prog_scope.

Section Methods.
Context `{Ext : Externals}.

(** ** Meaning of the effects *)

Inductive reply (X : Type) : Type :=
| Done (x : X) (w : World)      (* the call returns [x] *)
| Blocks                        (* the goroutine cannot proceed yet *)
| Throws (msg : string).        (* the Go runtime panics *)
Arguments Done {X} x w.
Arguments Blocks {X}.
Arguments Throws {X} msg.

(** What [Accept] returns on a closed listener: a [*net.OpError] wrapping
    [net.ErrClosed], whose [Temporary()] is false. *)
Definition net_ErrClosed : error :=
  mkError "use of closed network connection" (Some false).

Definition handle {X : Type} (e : eff X) (w : World) : reply X :=
  let a := agent w in
  match e in eff X return reply X with
  | MuLock =>
      if mu a then Blocks else Done tt (set_agent w (set_mu a true))
  | MuUnlock =>
      if mu a then Done tt (set_agent w (set_mu a false))
      else Throws "sync: unlock of unlocked mutex"
  | LookupEnv name => Done (env w name) w
  | UserHomeDir => Done (home w) w
  | ReadFile name => Done (files w name) w
  | GetTPM => Done (tpm a) w
  | TpmSign s data algo =>
      let (r, d) := SignWithAlgorithm s (device w) data algo in
      Done r (set_device w d)
  | CloseQuit =>
      if quit a then Throws "close of closed channel"
      else Done tt (set_agent w (set_quit a true))
  | QuitReady => Done (quit a) w
  | ListenerClose =>
      Done tt (set_agent w (set_listener a (mkListener true (l_pending (listener a)))))
  | ListenerAccept =>
      if l_closed (listener a) then Done (Err net_ErrClosed) w
      else match l_pending (listener a) with
           | [] => Blocks
           | r :: rest =>
               Done r (set_agent w (set_listener a (mkListener false rest)))
           end
  | WgAdd delta =>
      if (wg a + delta <? 0)%Z then Throws "sync: negative WaitGroup counter"
      else Done tt (set_agent w (set_wg a (wg a + delta)%Z))
  | WgWait => if (wg a =? 0)%Z then Done tt w else Blocks
  | RecvSignal =>
      match sighup w with
      | O => Blocks
      | S n => Done tt (set_sighup w n)
      end
  | LogPrintln msg => Done tt (emit w (EvLog msg))
  | FmtPrintln msg => Done tt (emit w (EvPrint msg))
  | Sleep ns => Done tt (emit w (EvSleep ns))
  end.

(** How a call ends when the goroutine runs alone. *)
Inductive outcome (A : Type) : Type :=
| Returned (a : A) (w : World)
| Panicked (msg : string) (w : World)
| Exited (msg : string) (w : World)     (* log.Fatalln: os.Exit(1) *)
| Blocked (w : World).
Arguments Returned {A} a w.
Arguments Panicked {A} msg w.
Arguments Exited {A} msg w.
Arguments Blocked {A} w.

Fixpoint run {A : Type} (p : prog A) (w : World) : outcome A :=
  match p with
  | Ret a => Returned a w
  | Panic m => Panicked m w
  | Fatalln m => Exited m (emit w (EvLog m))
  | Go g k => run k (add_started w g)
  | Vis e k =>
      match handle e w with
      | Done x w' => run (k x) w'
      | Blocks => Blocked w
      | Throws m => Panicked m w
      end
  end.

(** ** agent.go *)

(** [a.wg.Done()] *)
Definition WgDone : eff unit := WgAdd (-1).

(** [time.Second], in nanoseconds. *)
Definition time_Second : Z := 1000000000.

Definition getDataHome : prog string :=
  r <- trigger (LookupEnv "XDG_DATA_HOME") ;;
  match r with
  | Some s => Ret s
  | None =>
      h <- trigger UserHomeDir ;;
      match h with
      | Err _ => Panic "$HOME is not defined"
      | Ok dirname => Ret (path_Join dirname ".local/share")
      end
  end.

Definition getAgentStorage : prog string :=
  d <- getDataHome ;; Ret (path_Join d "tpm-ssh-agent").

Definition Close : prog (option error) := Ret None.

Definition signers : prog (result (list Signer)) :=
  dir <- getAgentStorage ;;
  b <- trigger (ReadFile (path_Join dir "ssh.key")) ;;
  match b with
  | Err err => Ret (Err err)
  | Ok b =>
      match UnmarshalKey b with
      | Err err => Ret (Err err)
      | Ok key =>
          t <- trigger GetTPM ;;
          match NewSignerFromSigner (NewTPMSigner key t) with
          | Err err => Ret (Err (Errorf_w "failed to prepare signer: " err))
          | Ok s => Ret (Ok [s])
          end
      end
  end.

Definition Signers : prog (result (list Signer)) :=
  trigger MuLock ;;;
  defer MuUnlock signers.

Definition List : prog (result (list AgentKey)) :=
  trigger MuLock ;;;
  defer MuUnlock (
    dir <- getAgentStorage ;;
    b <- trigger (ReadFile (path_Join dir "ssh.key")) ;;
    match b with
    | Err err => Ret (Err err)
    | Ok b =>
        match UnmarshalKey b with
        | Err err => Ret (Err err)
        | Ok key =>
            match SSHPublicKey key with
            | Err err => Ret (Err err)
            | Ok pk => Ret (Ok [mkAgentKey (pk_Type pk) (pk_Marshal pk) ""])
            end
        end
    end).

(** The [for _, s := range signers] loop of [SignWithFlags] and the
    [return] after it.  The assertion [s.(ssh.AlgorithmSigner)] holds for
    every signer [ssh.NewSignerFromSigner] builds. *)
Fixpoint sign_first_match (ss : list Signer) (key : PublicKey) (data : bytes)
  : prog (result Signature) :=
  match ss with
  | [] => Ret (Err (errors_New "no private keys match the requested public key"))
  | s :: rest =>
      if negb (bytes_Equal (pk_Marshal (Signer_PublicKey s)) (pk_Marshal key))
      then sign_first_match rest key data
      else trigger (TpmSign s data (pk_Type key))
  end.

Definition SignWithFlags (key : PublicKey) (data : bytes) (flags : SignatureFlags)
  : prog (result Signature) :=
  trigger MuLock ;;;
  defer MuUnlock (
    r <- signers ;;
    match r with
    | Err err => Ret (Err err)
    | Ok ss => sign_first_match ss key data
    end).

Definition Sign (key : PublicKey) (data : bytes) : prog (result Signature) :=
  SignWithFlags key data 0%Z.

Definition agent_ErrExtensionUnsupported : error :=
  errors_New "agent: extension unsupported".

Definition Extension (extensionType : string) (contents : bytes)
  : prog (result bytes) :=
  Ret (Err agent_ErrExtensionUnsupported).

Definition ErrOperationUnsupported : error := errors_New "operation unsupported".

Definition Add (key : AddedKey) : prog (option error) :=
  Ret (Some ErrOperationUnsupported).
Definition Remove (key : PublicKey) : prog (option error) :=
  Ret (Some ErrOperationUnsupported).
Definition RemoveAll : prog (option error) := Close.
Definition Lock (passphrase : bytes) : prog (option error) :=
  Ret (Some ErrOperationUnsupported).
Definition Unlock (passphrase : bytes) : prog (option error) :=
  Ret (Some ErrOperationUnsupported).

(** One request of a connection, as [agent.ServeAgent] hands it to the
    Agent; the reply goes back to the client. *)
Definition dispatch (r : request) : prog unit :=
  match r with
  | ReqList => List ;;; Ret tt
  | ReqSigners => Signers ;;; Ret tt
  | ReqSign key data => Sign key data ;;; Ret tt
  | ReqSignWithFlags key data flags => SignWithFlags key data flags ;;; Ret tt
  | ReqAdd key => Add key ;;; Ret tt
  | ReqRemove key => Remove key ;;; Ret tt
  | ReqRemoveAll => RemoveAll ;;; Ret tt
  | ReqLock p => Lock p ;;; Ret tt
  | ReqUnlock p => Unlock p ;;; Ret tt
  | ReqExtension t c => Extension t c ;;; Ret tt
  end.

(** [agent.ServeAgent(a, c)]: serve the requests of [c] in order, return
    the error that ended the stream. *)
Fixpoint serve_requests (rs : list request) : prog unit :=
  match rs with
  | [] => Ret tt
  | r :: rest => dispatch r ;;; serve_requests rest
  end.

Definition ServeAgent (c : Conn) : prog error :=
  serve_requests (conn_requests c) ;;; Ret (conn_end c).

Definition serveConn (c : Conn) : prog unit :=
  err <- ServeAgent c ;;
  if negb (is_EOF err)
  then trigger (LogPrintln ("Agent client connection ended with error: " ++ err_msg err))
  else Ret tt.

Definition Wait : prog unit := trigger WgWait.

Definition Stop : prog unit :=
  trigger CloseQuit ;;;
  trigger ListenerClose ;;;
  trigger WgWait ;;;
  trigger (FmtPrintln "stopped?").

(** [err.(temporary)] succeeded and [err.Temporary()] is true. *)
Definition is_temporary (err : error) : bool :=
  match err_temporary err with
  | Some true => true
  | _ => false
  end.

(** One iteration of the [for] loop of [serve]. *)
Definition serve_body : prog ctl :=
  r <- trigger ListenerAccept ;;
  match r with
  | Err err =>
      if is_temporary err then
        trigger (LogPrintln ("Temporary Accept error, sleeping 1s: " ++ err_msg err)) ;;;
        trigger (Sleep (1 * time_Second)) ;;;
        Ret Continue
      else
        q <- trigger QuitReady ;;
        if q then Ret Break
        else Fatalln ("Failed to accept connections: " ++ err_msg err)
  | Ok c =>
      trigger (WgAdd 1) ;;;
      Go (GoServeConn c) (Ret Continue)
  end.

(** One iteration of [for range c { a.Stop() }] in [execAgent]. *)
Definition signal_body : prog ctl :=
  trigger RecvSignal ;;;
  Stop ;;;
  Ret Continue.

(** ** Goroutines and the scheduler *)

(** A goroutine: straight-line code, a [for] loop ([cur] is what is left of
    the current iteration, [after] runs once the loop is left), or the main
    goroutine, whose return ends the process. *)
Inductive goroutine :=
| Once (cur : prog unit)
| Loop (cur body : prog ctl) (after : prog unit)
| Main (cur : prog unit).

(** [func (a *Agent) serve()]: [defer a.wg.Done()] around the loop. *)
Definition serve : goroutine := Loop serve_body serve_body (trigger WgDone).

Definition spawn (g : gofn) : goroutine :=
  match g with
  | GoServe => serve
  | GoServeConn c => Once (serveConn c ;;; trigger WgDone)
  | GoSignalLoop => Loop signal_body signal_body (Ret tt)
  end.

(** [holds] instruments the mutex: it is set by the goroutine's own
    [Lock] and cleared by its own [Unlock]. *)
Record thread := mkThread { code : goroutine; holds : bool }.

Inductive status :=
| Alive
| Crashed (msg : string)        (* unrecovered panic *)
| Exit (code : Z).              (* os.Exit, or main returned *)

Record System := mkSystem {
  world : World;
  pool : list thread;
  state : status
}.

Definition lock_effect {X : Type} (e : eff X) (h : bool) : bool :=
  match e with
  | MuLock => true
  | MuUnlock => false
  | _ => h
  end.

Inductive advanced (A : Type) : Type :=
| Next (p : prog A) (w : World) (h : bool)
| Forks (g : gofn) (p : prog A)
| Finished (a : A)
| Waits
| Dies (s : status) (w : World).
Arguments Next {A} p w h.
Arguments Forks {A} g p.
Arguments Finished {A} a.
Arguments Waits {A}.
Arguments Dies {A} s w.

(** One effect of a program. *)
Definition advance {A : Type} (p : prog A) (h : bool) (w : World) : advanced A :=
  match p with
  | Ret a => Finished a
  | Panic m => Dies (Crashed m) w
  | Fatalln m => Dies (Exit 1) (emit w (EvLog m))
  | Go g k => Forks g k
  | Vis e k =>
      match handle e w with
      | Done x w' => Next (k x) w' (lock_effect e h)
      | Blocks => Waits
      | Throws m => Dies (Crashed m) w
      end
  end.

Inductive moved :=
| Moved (g : goroutine) (w : World) (h : bool) (new : list thread)
| Stuck
| Dead (s : status) (w : World).

Definition step_goroutine (g : goroutine) (h : bool) (w : World) : moved :=
  match g with
  | Once cur =>
      match advance cur h w with
      | Next p w' h' => Moved (Once p) w' h' []
      | Forks f p => Moved (Once p) (add_started w f) h [mkThread (spawn f) false]
      | Finished _ => Stuck
      | Waits => Stuck
      | Dies s w' => Dead s w'
      end
  | Loop cur body after =>
      match advance cur h w with
      | Next p w' h' => Moved (Loop p body after) w' h' []
      | Forks f p =>
          Moved (Loop p body after) (add_started w f) h [mkThread (spawn f) false]
      | Finished Continue => Moved (Loop body body after) w h []
      | Finished Break => Moved (Once after) w h []
      | Waits => Stuck
      | Dies s w' => Dead s w'
      end
  | Main cur =>
      match advance cur h w with
      | Next p w' h' => Moved (Main p) w' h' []
      | Forks f p => Moved (Main p) (add_started w f) h [mkThread (spawn f) false]
      | Finished _ => Dead (Exit 0) w
      | Waits => Stuck
      | Dies s w' => Dead s w'
      end
  end.

Fixpoint replace_nth {A : Type} (i : nat) (x : A) (l : list A) : list A :=
  match l, i with
  | [], _ => []
  | _ :: t, O => x :: t
  | y :: t, S i' => y :: replace_nth i' x t
  end.

(** The scheduler lets goroutine [i] perform one effect. *)
Definition sched (i : nat) (s : System) : option System :=
  match state s with
  | Alive =>
      match nth_error (pool s) i with
      | Some t =>
          match step_goroutine (code t) (holds t) (world s) with
          | Moved g w h new =>
              Some (mkSystem w (replace_nth i (mkThread g h) (pool s) ++ new) Alive)
          | Stuck => None
          | Dead st w => Some (mkSystem w (pool s) st)
          end
      | None => None
      end
  | _ => None
  end.

(** The kernel delivers a SIGHUP: [signal.Notify] sends without blocking
    on the channel [c], of capacity 1. *)
Definition deliver_SIGHUP (s : System) : System :=
  mkSystem (set_sighup (world s) (if Nat.ltb (sighup (world s)) 1
                                  then S (sighup (world s))
                                  else sighup (world s)))
           (pool s) (state s).

(** Another process rewrites the storage. *)
Definition set_files (w : World) (f : string -> result bytes) : World :=
  mkWorld (agent w) (env w) (home w) f (device w) (sighup w) (started w) (out w).

Inductive sys_step : System -> System -> Prop :=
| step_sched i s s' : sched i s = Some s' -> sys_step s s'
| step_signal s : state s = Alive -> sys_step s (deliver_SIGHUP s)
| step_storage s f :
    state s = Alive ->
    sys_step s (mkSystem (set_files (world s) f) (pool s) (state s)).

Inductive reachable (s0 : System) : System -> Prop :=
| reach_init : reachable s0 s0
| reach_step s s' : reachable s0 s -> sys_step s s' -> reachable s0 s'.

(** The Agent [NewAgent] returns when [net.Listen] succeeded:
    [a.wg.Add(1)] is done and [go a.serve()] is started. *)
Definition NewAgent (tpmFetch : TPMFetch) (incoming : list (result Conn)) : Agent :=
  mkAgent false tpmFetch (mkListener false incoming) false 1.

(** The process once [execAgent] has returned into [runAgent]: the accept
    loop, the signal loop, and main in [a.Wait()]. *)
Definition execAgent (w : World) : System :=
  mkSystem (add_started (add_started w GoServe) GoSignalLoop)
           [mkThread (spawn GoServe) false;
            mkThread (spawn GoSignalLoop) false;
            mkThread (Main Wait) false]
           Alive.

(** A run of the scheduler along a list of choices; a choice that cannot
    step is skipped. *)
Inductive choice :=
| RunG (i : nat)
| Sighup.

Fixpoint exec (cs : list choice) (s : System) : System :=
  match cs with
  | [] => s
  | RunG i :: rest =>
      match sched i s with
      | Some s' => exec rest s'
      | None => exec rest s
      end
  | Sighup :: rest => exec rest (deliver_SIGHUP s)
  end.

End Methods.

Arguments Done {Ext X} x w.
Arguments Blocks {Ext X}.
Arguments Throws {Ext X} msg.
Arguments Returned {Ext A} a w.
Arguments Panicked {Ext A} msg w.
Arguments Exited {Ext A} msg w.
Arguments Blocked {Ext A} w.
Arguments Next {Ext A} p w h.
Arguments Forks {Ext A} g p.
Arguments Finished {Ext A} a.
Arguments Waits {Ext A}.
Arguments Dies {Ext A} s w.

(** ** A software TPM and a sample process

    A small implementation of the external interface, used to run the
    agent on concrete inputs. *)
Module Sample.

Definition ecdsa : string := "ecdsa-sha2-nistp256".

(** Keys are their raw bytes; only keys tagged [x01] have an ssh public
    key; the device signs while it is reachable ([true]). *)
Definition soft : Externals := {|
  Key := bytes;
  TPMFetch := unit;
  TPMSigner := bytes;
  Signer := bytes;
  Signature := string * bytes;
  Device := bool;
  AddedKey := bytes;
  path_Join := fun a b => a ++ "/" ++ b;
  UnmarshalKey := fun b =>
    match b with
    | [] => Err (errors_New "unexpected EOF")
    | _ => Ok b
    end;
  SSHPublicKey := fun k =>
    match k with
    | x01 :: _ => Ok (mkPublicKey ecdsa k)
    | _ => Err (errors_New "unsupported key type")
    end;
  NewTPMSigner := fun k _ => k;
  NewSignerFromSigner := fun k => Ok k;
  Signer_PublicKey := fun s => mkPublicKey ecdsa s;
  SignWithAlgorithm := fun s dev data algo =>
    if dev then (Ok (algo, (s ++ data)%list), dev)
    else (Err (errors_New "tpm: device unavailable"), dev)
|}.

Definition key_bytes : bytes := [x01; x2a].
Definition odd_key_bytes : bytes := [x07; x2a].

Definition xdg_env (name : string) : option string :=
  if String.eqb name "XDG_DATA_HOME" then Some "/data" else None.

Definition no_env (name : string) : option string := None.

Definition disk (content : bytes) (name : string) : result bytes :=
  if String.eqb name "/data/tpm-ssh-agent/ssh.key" then Ok content
  else Err (errors_New "open: no such file or directory").

(** A process whose key file holds [content], with the TPM reachable or
    not, and [incoming] as the future of the listener. *)
Definition world_with (content : bytes) (dev : bool)
           (incoming : list (result (@Conn soft))) : @World soft :=
  @mkWorld soft (@NewAgent soft tt incoming) xdg_env (Ok "/home/user")
           (disk content) dev 0 [] [].

Definition good_world : @World soft := world_with key_bytes true [].
Definition tpm_down_world : @World soft := world_with key_bytes false [].
Definition odd_key_world : @World soft := world_with odd_key_bytes true [].

(** No [XDG_DATA_HOME] and no home directory. *)
Definition homeless_world : @World soft :=
  @mkWorld soft (@NewAgent soft tt []) no_env
           (Err (errors_New "$HOME is not defined"))
           (disk key_bytes) true 0 [] [].

Definition good_key : PublicKey := mkPublicKey ecdsa key_bytes.
Definition other_key : PublicKey := mkPublicKey ecdsa [x01; x2b].
Definition message : bytes := [x68; x69].

(** A transient accept error ([EAGAIN]) followed by a closed listener. *)
Definition eagain : error :=
  mkError "accept: resource temporarily unavailable" (Some true).
Definition emfile : error :=
  mkError "accept: too many open files in system" (Some false).

(** Two SIGHUPs: the signal loop runs [Stop], the accept loop leaves, the
    signal loop takes the second signal and runs [Stop] again. *)
Definition two_sighups : list choice :=
  [Sighup; RunG 1; RunG 1; RunG 1; RunG 1; Sighup;
   RunG 0; RunG 0; RunG 0; RunG 0;
   RunG 1; RunG 1; RunG 1; RunG 1; RunG 1].

(** The listener fails once with [EAGAIN]. *)
Definition flaky_world : @World soft := world_with key_bytes true [Err eagain].

(** The listener fails with [ENFILE]. *)
Definition crowded_world : @World soft := world_with key_bytes true [Err emfile].

(** Two clients connect; one lists, one signs. *)
Definition busy_world : @World soft :=
  world_with key_bytes true
    [Ok (@mkConn soft [@ReqList soft] io_EOF);
     Ok (@mkConn soft [@ReqSignWithFlags soft good_key message 0%Z] io_EOF)].

(** The accept loop takes both connections (goroutines 3 and 4); 3 takes
    the mutex and reads the key while 4 waits for the mutex. *)
Definition contention : list choice :=
  [RunG 0; RunG 0; RunG 0; RunG 0; RunG 0; RunG 0; RunG 0; RunG 0;
   RunG 3; RunG 4; RunG 3; RunG 4].

(** The key file is empty. *)
Definition empty_key_world : @World soft := world_with [] true [].

(** The storage with every file but the key file rewritten. *)
Definition scribbled_disk (name : string) : result bytes :=
  if String.eqb name "/data/tpm-ssh-agent/ssh.key" then Ok key_bytes
  else Ok [x00].



End Sample.

(** ** Vocabulary of the properties *)
Section Vocabulary.
Context `{Ext : Externals}.

(** How a call ends, without the world it leaves. *)
Inductive verdict (A : Type) : Type :=
| Returns (a : A)
| Panics (msg : string)
| Exits (msg : string)
| Hangs.

Definition verdict_of {A : Type} (o : outcome A) : verdict A :=
  match o with
  | Returned a _ => Returns a
  | Panicked m _ => Panics _ m
  | Exited m _ => Exits _ m
  | Blocked _ => Hangs _
  end.

(** The accept loop of [serve] run alone, for at most [fuel] iterations;
    [None] when the loop is still running after them. *)
Fixpoint serve_loop (fuel : nat) (w : World) : option (outcome unit) :=
  match fuel with
  | O => None
  | S n =>
      match run serve_body w with
      | Returned Continue w' => serve_loop n w'
      | Returned Break w' => Some (run (trigger WgDone) w')
      | Panicked m w' => Some (Panicked m w')
      | Exited m w' => Some (Exited m w')
      | Blocked w' => Some (Blocked w')
      end
  end.

(** The effects of the bodies of the key-bearing operations: resolving
    the storage path, reading the key file, reaching the TPM, signing. *)
Definition key_effect {X : Type} (e : eff X) : bool :=
  match e with
  | LookupEnv _ | UserHomeDir | ReadFile _ | GetTPM | TpmSign _ _ _ => true
  | _ => false
  end.

(** What an effect asks of the instrumented mutex. *)
Definition lock_ok {X : Type} (e : eff X) (h : bool) : Prop :=
  match e with
  | MuLock => h = false
  | MuUnlock => h = true
  | _ => if key_effect e then h = true else True
  end.

(** A program is bracketed from [h] when it locks only what it does not
    hold, unlocks only what it holds, performs key effects only while
    holding, and returns without the lock. *)
Fixpoint bracketed {A : Type} (h : bool) (p : prog A) : Prop :=
  match p with
  | Ret _ => h = false
  | Panic _ => True
  | Fatalln _ => True
  | Go _ k => bracketed h k
  | Vis e k => lock_ok e h /\ forall x, bracketed (lock_effect e h) (k x)
  end.

(** A program that touches neither the mutex nor the key. *)
Fixpoint plain {A : Type} (p : prog A) : Prop :=
  match p with
  | Ret _ => True
  | Panic _ => True
  | Fatalln _ => True
  | Go _ k => plain k
  | Vis e k =>
      lock_effect e true = true /\ lock_effect e false = false /\
      key_effect e = false /\ forall x, plain (k x)
  end.

(** A program whose only effects are key effects. *)
Fixpoint keyonly {A : Type} (p : prog A) : Prop :=
  match p with
  | Ret _ => True
  | Panic _ => True
  | Fatalln _ => False
  | Go _ _ => False
  | Vis e k => key_effect e = true /\ forall x, keyonly (k x)
  end.

Definition goroutine_ok (h : bool) (g : goroutine) : Prop :=
  match g with
  | Once p => bracketed h p
  | Loop cur body after =>
      bracketed h cur /\ bracketed false body /\ bracketed false after
  | Main p => bracketed h p
  end.

Definition next_is_key {A : Type} (p : prog A) : bool :=
  match p with
  | Vis e _ => key_effect e
  | _ => false
  end.

(** The goroutine is inside the body of a key-bearing operation. *)
Definition in_key_operation (g : goroutine) : bool :=
  match g with
  | Once p => next_is_key p
  | Loop cur _ _ => next_is_key cur
  | Main p => next_is_key p
  end.

(** The invariant of the process. *)
Definition mutex_inv (s : System) : Prop :=
  (forall i t, nth_error (pool s) i = Some t -> goroutine_ok (holds t) (code t)) /\
  (forall i t, nth_error (pool s) i = Some t -> holds t = true ->
               mu (agent (world s)) = true) /\
  (forall i j ti tj,
      nth_error (pool s) i = Some ti -> nth_error (pool s) j = Some tj ->
      holds ti = true -> holds tj = true -> i = j).

(** The stored key loads: the path resolves, the file reads, the bytes
    deserialize, the signer is built. *)
Definition key_loads (w : World) (s : Signer) : Prop :=
  exists dir b k,
    run getAgentStorage w = Returned dir w /\
    files w (path_Join dir "ssh.key") = Ok b /\
    UnmarshalKey b = Ok k /\
    NewSignerFromSigner (NewTPMSigner k (tpm (agent w))) = Ok s.

(** The sentence "a signature is returned if and only if the blobs are
    equal", at one call. *)
Definition signature_iff_match (key : PublicKey) (data : bytes)
           (flags : SignatureFlags) (w : World) : Prop :=
  forall s, mu (agent w) = false -> key_loads w s ->
    ((exists sig w', run (SignWithFlags key data flags) w = Returned (Ok sig) w')
     <-> pk_Marshal (Signer_PublicKey s) = pk_Marshal key).

(** The sentence "whenever the key file is readable and its bytes
    deserialize, List returns exactly one record", at one world. *)
Definition one_record_when_deserialized (w : World) : Prop :=
  forall dir b k, mu (agent w) = false ->
    run getAgentStorage w = Returned dir w ->
    files w (path_Join dir "ssh.key") = Ok b ->
    UnmarshalKey b = Ok k ->
    exists rec w', run List w = Returned (Ok [rec]) w'.



(** How one step of a goroutine moves its [holds] flag and the mutex. *)
Definition lock_move (h h' m m' : bool) : Prop :=
  (h' = h /\ m' = m) \/
  (h = false /\ m = false /\ h' = true /\ m' = true) \/
  (h = true /\ h' = false /\ m' = false).

(** *** Shutdown order *)

Definition closes_listener {X : Type} (e : eff X) : bool :=
  match e with
  | ListenerClose => true
  | _ => false
  end.

Definition closes_quit {X : Type} (e : eff X) : bool :=
  match e with
  | CloseQuit => true
  | _ => false
  end.

(** From a state where the quit channel is closed or not ([q]), the
    program closes the listener only after the quit channel. *)
Fixpoint quit_first {A : Type} (q : bool) (p : prog A) : Prop :=
  match p with
  | Ret _ => True
  | Panic _ => True
  | Fatalln _ => True
  | Go _ k => quit_first q k
  | Vis e k =>
      (closes_listener e = true -> q = true) /\
      forall x, quit_first (q || closes_quit e) (k x)
  end.

Definition goroutine_quit_first (q : bool) (g : goroutine) : Prop :=
  match g with
  | Once p => quit_first q p
  | Loop cur body after =>
      quit_first q cur /\ quit_first false body /\ quit_first false after
  | Main p => quit_first q p
  end.

Definition shutdown_inv (s : System) : Prop :=
  (l_closed (listener (agent (world s))) = true ->
   quit (agent (world s)) = true) /\
  (forall i t, nth_error (pool s) i = Some t ->
               goroutine_quit_first (quit (agent (world s))) (code t)).

(** *** The wait group *)

(** What an effect adds to the counter of the wait group. *)
Definition wg_delta {X : Type} (e : eff X) : Z :=
  match e with
  | WgAdd delta => delta
  | _ => 0%Z
  end.

(** The units of the wait group a started goroutine is to give back:
    [serve] has its deferred [Done], a connection handler its final
    [Done], the signal loop none. *)
Definition debt_of (g : gofn) : Z :=
  match g with
  | GoServe => 1%Z
  | GoServeConn _ => 1%Z
  | GoSignalLoop => 0%Z
  end.

(** A program that holds [d] units of the wait group holds between [lo]
    and [hi] of them until it returns, hands one to each goroutine it
    starts, and returns holding what [Q] says. *)
Fixpoint owes {A : Type} (lo hi : Z) (p : prog A) (d : Z)
         (Q : A -> Z -> Prop) : Prop :=
  match p with
  | Ret a => Q a d
  | Panic _ => (lo <= d <= hi)%Z
  | Fatalln _ => (lo <= d <= hi)%Z
  | Go g k => (lo <= d <= hi)%Z /\ owes lo hi k (d - debt_of g)%Z Q
  | Vis e k => (lo <= d <= hi)%Z /\ forall x, owes lo hi (k x) (d + wg_delta e)%Z Q
  end.

Definition is_ret {A : Type} (p : prog A) : bool :=
  match p with
  | Ret _ => true
  | _ => false
  end.

(** The units a goroutine holds: a straight-line goroutine holds one
    until its last effect; a loop with a deferred [Done] holds one, and
    two between [wg.Add(1)] and the [go] statement; a loop without
    deferred code, and main, hold none. *)
Definition thread_debt (g : goroutine) (d : Z) : Prop :=
  match g with
  | Once p => owes 1 1 p d (fun _ d' => d' = 0%Z)
  | Loop cur body after =>
      if is_ret after
      then owes 0 0 cur d (fun _ d' => d' = 0%Z) /\
           owes 0 0 body 0 (fun _ d' => d' = 0%Z)
      else owes 1 2 cur d (fun _ d' => d' = 1%Z) /\
           owes 1 2 body 1 (fun _ d' => d' = 1%Z) /\
           owes 1 1 after 1 (fun _ d' => d' = 0%Z)
  | Main p => owes 0 0 p d (fun _ d' => d' = 0%Z)
  end.

Definition sumZ (ds : list Z) : Z := fold_right Z.add 0%Z ds.

(** The counter of the wait group is the sum of what the goroutines hold. *)
Definition wg_inv (s : System) : Prop :=
  exists ds,
    Forall2 (fun t d => thread_debt (code t) d) (pool s) ds /\
    wg (agent (world s)) = sumZ ds.

(** A goroutine the wait group no longer counts: it has returned, or it
    is a loop without deferred code (the signal loop), or main. *)
Definition joined (g : goroutine) : bool :=
  match g with
  | Once p => is_ret p
  | Loop _ _ after => is_ret after
  | Main _ => true
  end.

(** The goroutines the wait group still counts: the accept loop and the
    connection handlers that have not returned. *)
Definition working (pool : list thread) : list thread :=
  filter (fun t => negb (joined (code t))) pool.

(** What the next effect of a goroutine adds to the wait group. *)
Definition next_wg_delta (g : goroutine) : Z :=
  let next {A : Type} (p : prog A) : Z :=
    match p with
    | Vis e _ => wg_delta e
    | _ => 0%Z
    end in
  match g with
  | Once p => next p
  | Loop cur _ _ => next cur
  | Main p => next p
  end.

(** *** A shutdown of an idle agent *)

(** One SIGHUP: the signal loop (goroutine 1) takes it and runs [Stop]
    up to [a.wg.Wait()], the accept loop (goroutine 0) finds the listener
    closed and returns through its deferred [Done], and [Stop] finishes. *)
Definition stop_idle : list choice :=
  [Sighup; RunG 1; RunG 1; RunG 1;
   RunG 0; RunG 0; RunG 0; RunG 0;
   RunG 1; RunG 1].

(** *** Inside the critical section *)




End Vocabulary.

Arguments Returns {A} a.
Arguments Panics {A} msg.
Arguments Exits {A} msg.
Arguments Hangs {A}.

(** * Properties *)

Section Sequential.
Context `{Ext : Externals}.

Lemma bytes_Equal_true (a b : bytes) : bytes_Equal a b = true <-> a = b.
Proof.
  revert b; induction a as [|x a IH]; intros [|y b]; simpl; split;
    try congruence; try reflexivity.
  - intros H. apply andb_true_iff in H as [Hx Hab].
    apply Byte.byte_dec_bl in Hx. apply IH in Hab. congruence.
  - intros H. inversion H; subst. apply andb_true_iff. split.
    + now apply Byte.byte_dec_lb.
    + now apply IH.
Qed.

Lemma bytes_Equal_false (a b : bytes) : bytes_Equal a b = false <-> a <> b.
Proof.
  split.
  - intros H E. apply bytes_Equal_true in E. congruence.
  - intros H. destruct (bytes_Equal a b) eqn:E; [|reflexivity].
    apply bytes_Equal_true in E. contradiction.
Qed.

(** Releasing a mutex that was free before it was taken gives the world
    back. *)
Lemma relock_world (w : World) :
  mu (agent w) = false ->
  set_agent (set_agent w (set_mu (agent w) true))
            (set_mu (set_mu (agent w) true) false) = w.
Proof.
  destruct w as [[m t l q n] e h f d sg st o]; simpl; intros ->; reflexivity.
Qed.

Lemma relock_device (w : World) (d : Device) :
  mu (agent w) = false ->
  set_agent (set_device (set_agent w (set_mu (agent w) true)) d)
            (set_mu (set_mu (agent w) true) false) = set_device w d.
Proof.
  destruct w as [[m t l q n] e h f d0 sg st o]; simpl; intros ->; reflexivity.
Qed.

Lemma run_bind (A B : Type) (p : prog A) (f : A -> prog B) (w : World) :
  run (bind p f) w =
  match run p w with
  | Returned a w' => run (f a) w'
  | Panicked m w' => Panicked m w'
  | Exited m w' => Exited m w'
  | Blocked w' => Blocked w'
  end.
Proof.
  revert w; induction p as [a|m|m|g k IH|X e k IH]; intros w; simpl; auto.
  destruct (handle e w); auto.
Qed.

(** The storage directory is resolved from the environment alone. *)
Lemma run_getAgentStorage (w : World) :
  run getAgentStorage w =
  match env w "XDG_DATA_HOME" with
  | Some s => Returned (path_Join s "tpm-ssh-agent") w
  | None =>
      match home w with
      | Ok dirname =>
          Returned (path_Join (path_Join dirname ".local/share") "tpm-ssh-agent") w
      | Err _ => Panicked "$HOME is not defined" w
      end
  end.
Proof.
  unfold getAgentStorage, getDataHome; simpl.
  destruct (env w "XDG_DATA_HOME"); simpl; auto.
  destruct (home w); reflexivity.
Qed.

(** A key effect always completes, and changes nothing but the device. *)
Lemma handle_key_effect (X : Type) (e : eff X) (w : World) :
  key_effect e = true ->
  exists x w', handle e w = Done x w' /\ w' = set_device w (device w').
Proof.
  destruct w as [a en h f d sg st o].
  destruct e; simpl; try discriminate; intros _; eauto.
  destruct (SignWithAlgorithm s d data algo) as [r d']; simpl; eauto.
Qed.

Lemma keyonly_bind (A B : Type) (p : prog A) (f : A -> prog B) :
  keyonly p -> (forall a, keyonly (f a)) -> keyonly (bind p f).
Proof.
  induction p as [a|m|m|g k IH|X e k IH]; simpl; intros Hp Hf; auto.
  destruct Hp as [He Hk]. split; auto.
Qed.

Lemma keyonly_getAgentStorage : keyonly getAgentStorage.
Proof.
  unfold getAgentStorage, getDataHome. apply keyonly_bind; [|simpl; auto].
  simpl. split; [reflexivity|]. intros [s|]; simpl; auto.
  split; [reflexivity|]. intros [d|e]; simpl; auto.
Qed.

Lemma keyonly_signers : keyonly signers.
Proof.
  unfold signers. apply keyonly_bind; [apply keyonly_getAgentStorage|].
  intros dir. simpl. split; [reflexivity|]. intros [b|e]; simpl; auto.
  destruct (UnmarshalKey b) as [k|e]; simpl; auto.
  split; [reflexivity|]. intros t.
  destruct (NewSignerFromSigner (NewTPMSigner k t)); simpl; auto.
Qed.

Lemma keyonly_sign_first_match ss key data : keyonly (sign_first_match ss key data).
Proof.
  induction ss as [|s ss IH]; simpl; auto.
  destruct (negb _); simpl; auto.
Qed.

(** A program of key effects returns or panics, and leaves everything
    but the device as it was. *)
Lemma run_keyonly (A : Type) (p : prog A) (w : World) :
  keyonly p ->
  exists w', w' = set_device w (device w') /\
    ((exists a, run p w = Returned a w') \/ (exists m, run p w = Panicked m w')).
Proof.
  revert w; induction p as [a|m|m|g k IH|X e k IH]; intros w; simpl.
  - intros _. exists w. split; [destruct w; reflexivity|eauto].
  - intros _. exists w. split; [destruct w; reflexivity|eauto].
  - contradiction.
  - contradiction.
  - intros [He Hk].
    destruct (handle_key_effect e w He) as (x & w1 & -> & Hw1).
    destruct (IH x w1 (Hk x)) as (w2 & Hw2 & Hrun).
    exists w2. split; [|exact Hrun].
    rewrite Hw2 at 1. rewrite Hw1. destruct w; reflexivity.
Qed.

(** [defer a.mu.Unlock()] around a body of key effects: the mutex is
    released whether the body returns or panics. *)
Lemma run_defer_keyonly (A : Type) (p : prog A) (w : World) :
  keyonly p ->
  run (defer MuUnlock p) w =
  match run p w with
  | Returned a w' =>
      if mu (agent w') then Returned a (set_agent w' (set_mu (agent w') false))
      else Panicked "sync: unlock of unlocked mutex" w'
  | Panicked m w' =>
      if mu (agent w') then Panicked m (set_agent w' (set_mu (agent w') false))
      else Panicked "sync: unlock of unlocked mutex" w'
  | Exited m w' => Exited m w'
  | Blocked w' => Blocked w'
  end.
Proof.
  revert w; induction p as [a|m|m|g k IH|X e k IH]; intros w; simpl.
  - intros _. destruct (mu (agent w)); reflexivity.
  - intros _. destruct (mu (agent w)); reflexivity.
  - contradiction.
  - contradiction.
  - intros [He Hk].
    destruct (handle_key_effect e w He) as (x & w1 & -> & _). auto.
Qed.

(** A locked operation on a free mutex: the body runs in the locked world
    and the lock is released after it. *)
Lemma run_locked (A : Type) (p : prog A) (w : World) :
  keyonly p -> mu (agent w) = false ->
  run (trigger MuLock ;;; defer MuUnlock p) w =
  match run p (set_agent w (set_mu (agent w) true)) with
  | Returned a w' => Returned a (set_agent w' (set_mu (agent w') false))
  | Panicked m w' => Panicked m (set_agent w' (set_mu (agent w') false))
  | Exited m w' => Exited m w'
  | Blocked w' => Blocked w'
  end.
Proof.
  intros Hp Hmu. simpl. rewrite Hmu. rewrite run_defer_keyonly by assumption.
  destruct (run_keyonly p (set_agent w (set_mu (agent w) true)) Hp)
    as (w' & Hw' & [[a Hr]|[m Hr]]); rewrite Hr;
    rewrite Hw'; reflexivity.
Qed.

Lemma getAgentStorage_locked (w : World) (dir : string) (a : Agent) :
  run getAgentStorage w = Returned dir w ->
  run getAgentStorage (set_agent w a) = Returned dir (set_agent w a).
Proof.
  rewrite !run_getAgentStorage. simpl.
  destruct (env w "XDG_DATA_HOME"); [|destruct (home w)];
    intros H; inversion H; subst; reflexivity.
Qed.

Lemma keyonly_List_body :
  keyonly (dir <- getAgentStorage ;;
           b <- trigger (ReadFile (path_Join dir "ssh.key")) ;;
           match b with
           | Err err => Ret (Err err)
           | Ok b =>
               match UnmarshalKey b with
               | Err err => Ret (Err err)
               | Ok key =>
                   match SSHPublicKey key with
                   | Err err => Ret (Err err)
                   | Ok pk => Ret (Ok [mkAgentKey (pk_Type pk) (pk_Marshal pk) ""])
                   end
               end
           end).
Proof.
  apply keyonly_bind; [apply keyonly_getAgentStorage|].
  intros dir. simpl. split; [reflexivity|]. intros [b|e]; simpl; auto.
  destruct (UnmarshalKey b) as [k|e]; simpl; auto.
  destruct (SSHPublicKey k); simpl; auto.
Qed.

Lemma keyonly_SignWithFlags_body key data :
  keyonly (r <- signers ;;
           match r with
           | Err err => Ret (Err err)
           | Ok ss => sign_first_match ss key data
           end).
Proof.
  apply keyonly_bind; [apply keyonly_signers|].
  intros [ss|e]; simpl; auto. apply keyonly_sign_first_match.
Qed.

(** [List] on a free mutex, by what the storage holds. *)
Lemma run_List (w : World) (dir : string) :
  mu (agent w) = false ->
  run getAgentStorage w = Returned dir w ->
  run List w =
  Returned
    match files w (path_Join dir "ssh.key") with
    | Err err => Err err
    | Ok b =>
        match UnmarshalKey b with
        | Err err => Err err
        | Ok key =>
            match SSHPublicKey key with
            | Err err => Err err
            | Ok pk => Ok [mkAgentKey (pk_Type pk) (pk_Marshal pk) ""]
            end
        end
    end w.
Proof.
  intros Hmu Hdir. unfold List.
  rewrite run_locked by (auto using keyonly_List_body).
  rewrite run_bind, (getAgentStorage_locked _ Hdir). simpl.
  destruct (files w (path_Join dir "ssh.key")) as [b|e]; simpl;
    [|now rewrite relock_world].
  destruct (UnmarshalKey b) as [k|e]; simpl; [|now rewrite relock_world].
  destruct (SSHPublicKey k); simpl; now rewrite relock_world.
Qed.

Lemma run_signers (w : World) (dir : string) :
  run getAgentStorage w = Returned dir w ->
  run signers w =
  Returned
    match files w (path_Join dir "ssh.key") with
    | Err err => Err err
    | Ok b =>
        match UnmarshalKey b with
        | Err err => Err err
        | Ok key =>
            match NewSignerFromSigner (NewTPMSigner key (tpm (agent w))) with
            | Err err => Err (Errorf_w "failed to prepare signer: " err)
            | Ok s => Ok [s]
            end
        end
    end w.
Proof.
  intros Hdir. unfold signers. rewrite run_bind, Hdir. simpl.
  destruct (files w (path_Join dir "ssh.key")) as [b|e]; simpl; auto.
  destruct (UnmarshalKey b) as [k|e]; simpl; auto.
  destruct (NewSignerFromSigner (NewTPMSigner k (tpm (agent w)))); reflexivity.
Qed.

Lemma key_loads_signers (w : World) (s : Signer) (a : Agent) :
  key_loads w s -> tpm a = tpm (agent w) ->
  run signers (set_agent w a) = Returned (Ok [s]) (set_agent w a).
Proof.
  intros (dir & b & k & Hdir & Hf & Hk & Hs) Ht.
  rewrite (run_signers (getAgentStorage_locked a Hdir)). simpl.
  rewrite Hf, Hk, Ht, Hs. reflexivity.
Qed.

(** [SignWithFlags] on a free mutex when the stored key loads. *)
Lemma run_SignWithFlags (w : World) (s : Signer) key data flags :
  mu (agent w) = false -> key_loads w s ->
  run (SignWithFlags key data flags) w =
  if bytes_Equal (pk_Marshal (Signer_PublicKey s)) (pk_Marshal key)
  then Returned (fst (SignWithAlgorithm s (device w) data (pk_Type key)))
                (set_device w (snd (SignWithAlgorithm s (device w) data (pk_Type key))))
  else Returned (Err (errors_New "no private keys match the requested public key")) w.
Proof.
  intros Hmu Hload. unfold SignWithFlags.
  rewrite run_locked by (auto using keyonly_SignWithFlags_body).
  rewrite run_bind, (key_loads_signers _ Hload) by reflexivity. simpl.
  destruct (bytes_Equal _ _); simpl.
  - destruct (SignWithAlgorithm s (device w) data (pk_Type key)) as [r d]. simpl.
    now rewrite relock_device.
  - now rewrite relock_world.
Qed.

(** A locked operation whose path cannot be resolved: blocked while the
    mutex is held, a panic once it is free. *)
Lemma run_locked_homeless (A : Type) (k : string -> prog A) (w : World) (e : error) :
  (forall dir, keyonly (k dir)) ->
  env w "XDG_DATA_HOME" = None -> home w = Err e ->
  run (trigger MuLock ;;; defer MuUnlock (dir <- getAgentStorage ;; k dir)) w =
  if mu (agent w) then Blocked w else Panicked "$HOME is not defined" w.
Proof.
  intros Hk Henv Hhome. destruct (mu (agent w)) eqn:Hmu.
  - simpl. now rewrite Hmu.
  - rewrite run_locked; auto using keyonly_bind, keyonly_getAgentStorage.
    rewrite run_bind, run_getAgentStorage. simpl. rewrite Henv, Hhome.
    now rewrite relock_world.
Qed.








(** ** The operations on the key *)

(** C5 (as amended).  On a free mutex and with the storage path resolved:
    when the key file is readable, its bytes deserialize and the ssh public
    key of the deserialized key can be derived, [List] returns exactly one
    record, whose format is the type of that public key and whose blob is
    its marshaled bytes; when the file is unreadable, the bytes do not
    deserialize, or the public key cannot be derived, [List] fails with
    that error and returns no record.  The world is left as it was. *)
Theorem List_one_record (w : World) (dir : string) :
  mu (agent w) = false ->
  run getAgentStorage w = Returned dir w ->
  (forall b k pk,
      files w (path_Join dir "ssh.key") = Ok b ->
      UnmarshalKey b = Ok k -> SSHPublicKey k = Ok pk ->
      run List w = Returned (Ok [mkAgentKey (pk_Type pk) (pk_Marshal pk) ""]) w) /\
  (forall err,
      files w (path_Join dir "ssh.key") = Err err ->
      run List w = Returned (Err err) w) /\
  (forall b err,
      files w (path_Join dir "ssh.key") = Ok b ->
      UnmarshalKey b = Err err ->
      run List w = Returned (Err err) w) /\
  (forall b k err,
      files w (path_Join dir "ssh.key") = Ok b ->
      UnmarshalKey b = Ok k -> SSHPublicKey k = Err err ->
      run List w = Returned (Err err) w).
Proof.
  intros Hmu Hdir. rewrite (run_List Hmu Hdir).
  repeat split; intros.
  - rewrite H, H0, H1. reflexivity.
  - rewrite H. reflexivity.
  - rewrite H, H0. reflexivity.
  - rewrite H, H0, H1. reflexivity.
Qed.

(** C3 (as amended).  When the stored key loads and the mutex is free:
    if the requested key's marshaled blob equals the stored signer's
    public-key blob, [SignWithFlags] returns exactly what the signer's
    [SignWithAlgorithm] returns for the data with the requested key's type
    as algorithm (a signature, or the signer's error); if the blobs differ
    it returns the error "no private keys match the requested public key"
    and no signature; so a signature is returned only if the blobs are
    equal. *)
Theorem SignWithFlags_match (w : World) (s : Signer)
        (key : PublicKey) (data : bytes) (flags : SignatureFlags) :
  mu (agent w) = false ->
  key_loads w s ->
  (pk_Marshal (Signer_PublicKey s) = pk_Marshal key ->
   run (SignWithFlags key data flags) w =
   Returned (fst (SignWithAlgorithm s (device w) data (pk_Type key)))
            (set_device w (snd (SignWithAlgorithm s (device w) data (pk_Type key))))) /\
  (pk_Marshal (Signer_PublicKey s) <> pk_Marshal key ->
   run (SignWithFlags key data flags) w =
   Returned (Err (errors_New "no private keys match the requested public key")) w) /\
  (forall sig w',
      run (SignWithFlags key data flags) w = Returned (Ok sig) w' ->
      pk_Marshal (Signer_PublicKey s) = pk_Marshal key).
Proof.
  intros Hmu Hload. rewrite (run_SignWithFlags key data flags Hmu Hload).
  destruct (bytes_Equal (pk_Marshal (Signer_PublicKey s)) (pk_Marshal key)) eqn:E.
  - apply bytes_Equal_true in E. repeat split; auto; contradiction.
  - apply bytes_Equal_false in E. repeat split; auto; try contradiction.
    intros sig w' H. discriminate H.
Qed.

(** C6.  [Add], [Remove], [Lock] and [Unlock] are programs without any
    effect that return the one error "operation unsupported", on every
    input and in every world, which they leave as it is; [Extension]
    likewise returns [agent.ErrExtensionUnsupported] for every extension
    type and contents. *)
Theorem unsupported_operations (w : World) (added : AddedKey) (key : PublicKey)
        (passphrase : bytes) (extensionType : string) (contents : bytes) :
  (Add added = Ret (Some ErrOperationUnsupported) /\
   Remove key = Ret (Some ErrOperationUnsupported) /\
   Lock passphrase = Ret (Some ErrOperationUnsupported) /\
   Unlock passphrase = Ret (Some ErrOperationUnsupported) /\
   Extension extensionType contents = Ret (Err agent_ErrExtensionUnsupported)) /\
  run (Add added) w = Returned (Some ErrOperationUnsupported) w /\
  run (Remove key) w = Returned (Some ErrOperationUnsupported) w /\
  run (Lock passphrase) w = Returned (Some ErrOperationUnsupported) w /\
  run (Unlock passphrase) w = Returned (Some ErrOperationUnsupported) w /\
  run (Extension extensionType contents) w =
    Returned (Err agent_ErrExtensionUnsupported) w /\
  err_msg ErrOperationUnsupported = "operation unsupported".
Proof.
  repeat split.
Qed.

(** C7.  [Sign key data] is the program [SignWithFlags key data 0]; the
    two end the same way in every world. *)
Theorem Sign_is_SignWithFlags_zero (key : PublicKey) (data : bytes) (w : World) :
  Sign key data = SignWithFlags key data 0%Z /\
  run (Sign key data) w = run (SignWithFlags key data 0%Z) w.
Proof.
  split; reflexivity.
Qed.

(** C9.  [SignWithFlags] does not look at its flags: with any two flags
    values it is the same program and ends the same way in every world;
    the algorithm handed to the signer is the requested key's type. *)
Theorem SignWithFlags_ignores_flags (key : PublicKey) (data : bytes)
        (f1 f2 : SignatureFlags) (w : World) :
  SignWithFlags key data f1 = SignWithFlags key data f2 /\
  run (SignWithFlags key data f1) w = run (SignWithFlags key data f2) w /\
  forall s rest,
    bytes_Equal (pk_Marshal (Signer_PublicKey s)) (pk_Marshal key) = true ->
    sign_first_match (s :: rest) key data = trigger (TpmSign s data (pk_Type key)).
Proof.
  repeat split. intros s rest H. simpl. rewrite H. reflexivity.
Qed.

(** C10.  With [XDG_DATA_HOME] unset and no home directory, [List],
    [Sign], [SignWithFlags] and [Signers] panic with "$HOME is not defined"
    as soon as they hold the mutex (and wait for it before): none of them
    returns an error to its caller. *)
Theorem key_operations_panic_without_home (w : World) (e : error)
        (key : PublicKey) (data : bytes) (flags : SignatureFlags) :
  env w "XDG_DATA_HOME" = None ->
  home w = Err e ->
  run List w =
    (if mu (agent w) then Blocked w else Panicked "$HOME is not defined" w) /\
  run (Sign key data) w =
    (if mu (agent w) then Blocked w else Panicked "$HOME is not defined" w) /\
  run (SignWithFlags key data flags) w =
    (if mu (agent w) then Blocked w else Panicked "$HOME is not defined" w) /\
  run Signers w =
    (if mu (agent w) then Blocked w else Panicked "$HOME is not defined" w).
Proof.
  intros Henv Hhome.
  assert (HS : forall fl, run (SignWithFlags key data fl) w =
    (if mu (agent w) then Blocked w else Panicked "$HOME is not defined" w)).
  { intros fl. unfold SignWithFlags. destruct (mu (agent w)) eqn:Hmu.
    - simpl. now rewrite Hmu.
    - rewrite run_locked by (auto using keyonly_SignWithFlags_body).
      unfold signers. rewrite !run_bind, run_getAgentStorage. simpl.
      rewrite Henv, Hhome. now rewrite relock_world. }
  repeat split.
  - unfold List. apply run_locked_homeless with (e := e); auto.
    intros dir. simpl. split; [reflexivity|]. intros [b|er]; simpl; auto.
    destruct (UnmarshalKey b) as [k|er]; simpl; auto.
    destruct (SSHPublicKey k); simpl; auto.
  - apply HS.
  - apply HS.
  - unfold Signers, signers. apply run_locked_homeless with (e := e); auto.
    intros dir. simpl. split; [reflexivity|]. intros [b|er]; simpl; auto.
    destruct (UnmarshalKey b) as [k|er]; simpl; auto.
    split; [reflexivity|]. intros t.
    destruct (NewSignerFromSigner (NewTPMSigner k t)); simpl; auto.
Qed.


End Sequential.

Section Lifecycle.
Context `{Ext : Externals}.

Lemma accept_frame (w w' : World) (r : result Conn) :
  handle ListenerAccept w = Done r w' ->
  quit (agent w') = quit (agent w) /\ out w' = out w /\ wg (agent w') = wg (agent w).
Proof.
  simpl. destruct (l_closed (listener (agent w))).
  - intros H; inversion H; subst; auto.
  - destruct (l_pending (listener (agent w))) as [|r0 rest]; [discriminate|].
    intros H; inversion H; subst; auto.
Qed.

(** C4.  When [Accept] returns an error in the loop of [serve]: if the
    error is temporary, one line is logged, the goroutine sleeps once, for
    one second, and the loop goes on with its next iteration; otherwise,
    if the quit channel is closed the loop is left and [serve] returns
    (after its deferred [wg.Done]), and if it is open the process exits
    through [log.Fatalln] at once. *)
Theorem serve_accept_error (w w' : World) (err : error) :
  handle ListenerAccept w = Done (Err err) w' ->
  (is_temporary err = true ->
   run serve_body w =
   Returned Continue
     (emit (emit w' (EvLog ("Temporary Accept error, sleeping 1s: " ++ err_msg err)))
           (EvSleep 1000000000)) /\
   out (emit (emit w' (EvLog ("Temporary Accept error, sleeping 1s: " ++ err_msg err)))
             (EvSleep 1000000000)) =
   EvSleep 1000000000
     :: EvLog ("Temporary Accept error, sleeping 1s: " ++ err_msg err) :: out w /\
   forall n,
     serve_loop (S n) w =
     serve_loop n
       (emit (emit w' (EvLog ("Temporary Accept error, sleeping 1s: " ++ err_msg err)))
             (EvSleep 1000000000))) /\
  (is_temporary err = false -> quit (agent w) = true ->
   run serve_body w = Returned Break w' /\
   forall n, serve_loop (S n) w = Some (run (trigger WgDone) w')) /\
  (is_temporary err = false -> quit (agent w) = false ->
   run serve_body w =
   Exited ("Failed to accept connections: " ++ err_msg err)
          (emit w' (EvLog ("Failed to accept connections: " ++ err_msg err))) /\
   forall n,
     serve_loop (S n) w =
     Some (Exited ("Failed to accept connections: " ++ err_msg err)
                  (emit w' (EvLog ("Failed to accept connections: " ++ err_msg err))))).
Proof.
  intros Hacc. destruct (accept_frame _ Hacc) as (Hq & Hout & _).
  assert (Hbody : run serve_body w =
    if is_temporary err then
      Returned Continue
        (emit (emit w' (EvLog ("Temporary Accept error, sleeping 1s: " ++ err_msg err)))
              (EvSleep 1000000000))
    else if quit (agent w) then Returned Break w'
    else Exited ("Failed to accept connections: " ++ err_msg err)
                (emit w' (EvLog ("Failed to accept connections: " ++ err_msg err)))).
  { unfold serve_body. rewrite run_bind.
    change (run (trigger ListenerAccept) w) with
      (match handle ListenerAccept w with
       | Done x w1 => Returned x w1
       | Blocks => Blocked w
       | Throws m => Panicked m w
       end).
    rewrite Hacc. destruct (is_temporary err); [reflexivity|].
    simpl. rewrite Hq. destruct (quit (agent w)); reflexivity. }
  repeat split.
  - rewrite Hbody, H. reflexivity.
  - simpl. now rewrite Hout.
  - intros n. change (serve_loop (S n) w) with
      (match run serve_body w with
       | Returned Continue w1 => serve_loop n w1
       | Returned Break w1 => Some (run (trigger WgDone) w1)
       | Panicked m w1 => Some (Panicked m w1)
       | Exited m w1 => Some (Exited m w1)
       | Blocked w1 => Some (Blocked w1)
       end).
    rewrite Hbody, H. reflexivity.
  - rewrite Hbody, H, H0. reflexivity.
  - intros n. change (serve_loop (S n) w) with
      (match run serve_body w with
       | Returned Continue w1 => serve_loop n w1
       | Returned Break w1 => Some (run (trigger WgDone) w1)
       | Panicked m w1 => Some (Panicked m w1)
       | Exited m w1 => Some (Exited m w1)
       | Blocked w1 => Some (Blocked w1)
       end).
    rewrite Hbody, H, H0. reflexivity.
  - rewrite Hbody, H, H0. reflexivity.
  - intros n. change (serve_loop (S n) w) with
      (match run serve_body w with
       | Returned Continue w1 => serve_loop n w1
       | Returned Break w1 => Some (run (trigger WgDone) w1)
       | Panicked m w1 => Some (Panicked m w1)
       | Exited m w1 => Some (Exited m w1)
       | Blocked w1 => Some (Blocked w1)
       end).
    rewrite Hbody, H, H0. reflexivity.
Qed.

(** [Stop] closes the quit channel before anything else, so a [Stop] that
    has returned leaves a world in which the next [Stop] panics. *)
Lemma Stop_on_closed_quit (w : World) :
  quit (agent w) = true ->
  run Stop w = Panicked "close of closed channel" w.
Proof.
  intros H. unfold Stop. simpl. rewrite H. reflexivity.
Qed.

Lemma Stop_closes_quit (w w' : World) :
  run Stop w = Returned tt w' -> quit (agent w') = true.
Proof.
  unfold Stop. simpl. destruct (quit (agent w)); [discriminate|]. simpl.
  destruct (wg (agent w) =? 0)%Z; [|discriminate].
  intros H; inversion H; reflexivity.
Qed.

(** In no world do two calls of [Stop] in a row both return. *)
Lemma Stop_twice_never_returns (w : World) :
  verdict_of (run (Stop ;;; Stop) w) <> Returns tt.
Proof.
  rewrite run_bind.
  destruct (run Stop w) as [[] w'| | |] eqn:Hfirst; cbv beta iota;
    try (simpl; discriminate).
  rewrite (@Stop_on_closed_quit w' (@Stop_closes_quit w w' Hfirst)).
  discriminate.
Qed.

End Lifecycle.

Section Concurrency.
Context `{Ext : Externals}.

(** *** Every goroutine of the agent is bracketed *)

Lemma bracketed_bind (A B : Type) (p : prog A) (f : A -> prog B) (h : bool) :
  bracketed h p -> (forall a, bracketed false (f a)) -> bracketed h (bind p f).
Proof.
  revert h; induction p as [a|m|m|g k IH|X e k IH]; intros h; simpl; auto.
  - intros -> Hf. apply Hf.
  - intros [He Hk] Hf. split; auto.
Qed.

Lemma plain_bracketed (A : Type) (p : prog A) : plain p -> bracketed false p.
Proof.
  induction p as [a|m|m|g k IH|X e k IH]; simpl; auto.
  intros (Ht & Hf & Hkey & Hk). split.
  - destruct e; simpl in *; auto; discriminate.
  - intros x. rewrite Hf. auto.
Qed.

Lemma keyonly_deferred (A : Type) (p : prog A) :
  keyonly p -> bracketed true (defer MuUnlock p).
Proof.
  induction p as [a|m|m|g k IH|X e k IH]; simpl; auto; try contradiction.
  intros [He Hk]. split.
  - destruct e; simpl in *; auto; discriminate.
  - intros x. replace (lock_effect e true) with true; auto.
    destruct e; simpl in *; auto; discriminate.
Qed.

Lemma locked_bracketed (A : Type) (p : prog A) :
  keyonly p -> bracketed false (trigger MuLock ;;; defer MuUnlock p).
Proof.
  intros Hp. simpl. split; [reflexivity|]. intros _. now apply keyonly_deferred.
Qed.

Lemma dispatch_bracketed (r : request) : bracketed false (dispatch r).
Proof.
  destruct r; cbv beta iota delta [dispatch];
    try (simpl; reflexivity);
    apply bracketed_bind; try (intros; simpl; reflexivity).
  - apply locked_bracketed, keyonly_List_body.
  - apply locked_bracketed, keyonly_signers.
  - apply locked_bracketed, keyonly_SignWithFlags_body.
  - apply locked_bracketed, keyonly_SignWithFlags_body.
Qed.

Lemma serve_requests_bracketed (rs : list request) :
  bracketed false (serve_requests rs).
Proof.
  induction rs as [|r rs IH]; simpl; [reflexivity|].
  apply bracketed_bind; auto using dispatch_bracketed.
Qed.

Lemma serveConn_bracketed (c : Conn) :
  bracketed false (serveConn c ;;; trigger WgDone).
Proof.
  apply bracketed_bind; [|intros; simpl; auto].
  unfold serveConn, ServeAgent. apply bracketed_bind.
  - apply bracketed_bind; [apply serve_requests_bracketed|].
    intros; simpl; reflexivity.
  - intros err. destruct (negb (is_EOF err)); simpl; auto.
Qed.

Lemma serve_body_bracketed : bracketed false serve_body.
Proof.
  apply plain_bracketed. unfold serve_body. simpl.
  repeat split; auto. intros [c|err]; simpl.
  - repeat split; auto.
  - destruct (is_temporary err); simpl; repeat split; auto.
    intros []; simpl; auto.
Qed.

Lemma signal_body_bracketed : bracketed false signal_body.
Proof.
  apply plain_bracketed. unfold signal_body, Stop. simpl. repeat split; auto.
Qed.

Lemma spawn_ok (g : gofn) : goroutine_ok false (spawn g).
Proof.
  destruct g; cbv beta iota delta [spawn serve goroutine_ok].
  - split; [|split]; try exact serve_body_bracketed.
    simpl. split; [exact I|reflexivity].
  - exact (serveConn_bracketed c).
  - split; [|split]; try exact signal_body_bracketed. reflexivity.
Qed.

(** *** One effect keeps the instrumented mutex consistent *)

Lemma handle_lock_move (X : Type) (e : eff X) (h : bool) (w w' : World) (x : X) :
  lock_ok e h -> handle e w = Done x w' ->
  lock_move h (lock_effect e h) (mu (agent w)) (mu (agent w')).
Proof.
  unfold lock_move. destruct e; simpl; intros Hok Hh;
    try (inversion Hh; subst; simpl; now left).
  - destruct (mu (agent w)) eqn:Hm; [discriminate|].
    inversion Hh; subst; simpl. right; left. auto.
  - destruct (mu (agent w)) eqn:Hm; [|discriminate].
    inversion Hh; subst; simpl. right; right. auto.
  - destruct (SignWithAlgorithm s (device w) data algo).
    inversion Hh; subst; simpl. now left.
  - destruct (quit (agent w)); [discriminate|].
    inversion Hh; subst; simpl. now left.
  - destruct (l_closed (listener (agent w))).
    + inversion Hh; subst; now left.
    + destruct (l_pending (listener (agent w))); [discriminate|].
      inversion Hh; subst; simpl. now left.
  - destruct (wg (agent w) + delta <? 0)%Z; [discriminate|].
    inversion Hh; subst; simpl. now left.
  - destruct (wg (agent w) =? 0)%Z; [|discriminate].
    inversion Hh; subst; now left.
  - destruct (sighup w); [discriminate|].
    inversion Hh; subst; simpl. now left.
Qed.

Lemma advance_next (A : Type) (p p' : prog A) (h h' : bool) (w w' : World) :
  bracketed h p -> advance p h w = Next p' w' h' ->
  bracketed h' p' /\ lock_move h h' (mu (agent w)) (mu (agent w')).
Proof.
  destruct p as [a|m|m|g k|X e k]; simpl; try discriminate.
  intros [Hok Hk]. destruct (handle e w) as [x w1| |m] eqn:Hh; try discriminate.
  intros H; inversion H; subst. split; [apply Hk|].
  eapply handle_lock_move; eauto.
Qed.

Lemma advance_forks (A : Type) (p p' : prog A) (h : bool) (w : World) (g : gofn) :
  bracketed h p -> advance p h w = Forks g p' -> bracketed h p'.
Proof.
  destruct p as [a|m|m|g0 k|X e k]; simpl; try discriminate.
  - intros Hk H; inversion H; subst; exact Hk.
  - destruct (handle e w); discriminate.
Qed.

Lemma advance_finished (A : Type) (p : prog A) (h : bool) (w : World) (a : A) :
  bracketed h p -> advance p h w = Finished a -> h = false.
Proof.
  destruct p as [a0|m|m|g0 k|X e k]; simpl; try discriminate; auto.
  destruct (handle e w); discriminate.
Qed.

Lemma advance_dies (A : Type) (p : prog A) (h : bool) (w w' : World) (st : status) :
  advance p h w = Dies st w' -> mu (agent w') = mu (agent w).
Proof.
  destruct p as [a0|m|m|g0 k|X e k]; simpl; try discriminate.
  - intros H; inversion H; reflexivity.
  - intros H; inversion H; reflexivity.
  - destruct (handle e w); try discriminate. intros H; inversion H; reflexivity.
Qed.

Lemma lock_move_refl (h m : bool) : lock_move h h m m.
Proof. left; auto. Qed.

Lemma step_goroutine_moved (g g' : goroutine) (h h' : bool) (w w' : World)
      (new : list thread) :
  goroutine_ok h g -> step_goroutine g h w = Moved g' w' h' new ->
  goroutine_ok h' g' /\
  lock_move h h' (mu (agent w)) (mu (agent w')) /\
  (forall t, In t new -> holds t = false /\ goroutine_ok false (code t)).
Proof.
  assert (Hnil : forall t : thread,
             In t [] -> holds t = false /\ goroutine_ok false (code t))
    by (intros t []).
  assert (Hone : forall f (t : thread), In t [mkThread (spawn f) false] ->
             holds t = false /\ goroutine_ok false (code t)).
  { intros f t [<-|[]]. split; [reflexivity|apply spawn_ok]. }
  destruct g as [cur|cur body after|cur]; simpl.
  - intros Hok. destruct (advance cur h w) as [p w1 h1|f p|a| |st w1] eqn:Ha;
      try discriminate; intros H; inversion H; subst.
    + destruct (advance_next _ _ _ Hok Ha). split; [|split]; auto.
    + split; [simpl; eapply advance_forks; eauto|].
      split; [apply lock_move_refl|apply Hone].
  - intros (Hcur & Hbody & Hafter).
    destruct (advance cur h w) as [p w1 h1|f p|a| |st w1] eqn:Ha;
      try discriminate.
    + intros H; inversion H; subst.
      destruct (advance_next _ _ _ Hcur Ha). split; [|split]; simpl; auto.
    + intros H; inversion H; subst.
      split; [simpl; split; [eapply advance_forks; eauto|auto]|].
      split; [apply lock_move_refl|apply Hone].
    + pose proof (advance_finished _ _ _ Hcur Ha) as Hh.
      destruct a; intros H; inversion H; subst; simpl;
        (split; [|split]); auto using lock_move_refl.
  - intros Hok. destruct (advance cur h w) as [p w1 h1|f p|a| |st w1] eqn:Ha;
      try discriminate; intros H; inversion H; subst.
    + destruct (advance_next _ _ _ Hok Ha). split; [|split]; auto.
    + split; [simpl; eapply advance_forks; eauto|].
      split; [apply lock_move_refl|apply Hone].
Qed.

Lemma step_goroutine_dead (g : goroutine) (h : bool) (w w' : World) (st : status) :
  step_goroutine g h w = Dead st w' -> mu (agent w') = mu (agent w).
Proof.
  destruct g as [cur|cur body after|cur]; simpl;
    destruct (advance cur h w) as [p w1 h1|f p|a| |st1 w1] eqn:Ha;
    try discriminate;
    try solve [intros H; inversion H; subst; eapply advance_dies; eauto].
  - destruct a; discriminate.
  - intros H; inversion H; reflexivity.
Qed.

(** *** The pool *)

Lemma nth_error_replace_nth (A : Type) (l : list A) (i j : nat) (x t : A) :
  nth_error (replace_nth i x l) j = Some t ->
  (j = i /\ t = x) \/ (j <> i /\ nth_error l j = Some t).
Proof.
  revert i j; induction l as [|y l IH]; intros i j.
  - destruct i; simpl; destruct j; discriminate.
  - destruct i as [|i]; destruct j as [|j]; simpl; intros H.
    + inversion H; auto.
    + right; split; [discriminate|assumption].
    + right; split; [discriminate|assumption].
    + destruct (IH _ _ H) as [[-> ->]|[Hne Hn]]; [left; auto|right; auto].
Qed.

Lemma nth_error_pool (A : Type) (l new : list A) (i j : nat) (x t : A) :
  nth_error (replace_nth i x l ++ new) j = Some t ->
  (j = i /\ t = x) \/ (j <> i /\ nth_error l j = Some t) \/ In t new.
Proof.
  intros H. destruct (Nat.lt_ge_cases j (List.length (replace_nth i x l))) as [Hlt|Hge].
  - rewrite nth_error_app1 in H by assumption.
    destruct (nth_error_replace_nth _ _ _ _ H); auto.
  - rewrite nth_error_app2 in H by assumption.
    right; right. eapply nth_error_In; eauto.
Qed.

(** *** The invariant is kept by every step *)

Lemma mutex_inv_sched (i : nat) (s s' : System) :
  mutex_inv s -> sched i s = Some s' -> mutex_inv s'.
Proof.
  intros (Hok & Hmu & Huniq). unfold sched.
  destruct (state s); try discriminate.
  destruct (nth_error (pool s) i) as [t|] eqn:Hi; try discriminate.
  destruct (step_goroutine (code t) (holds t) (world s))
    as [g w h new| |st w] eqn:Hstep; try discriminate;
    intros H; inversion H; subst; clear H.
  - destruct (step_goroutine_moved _ _ _ (Hok _ _ Hi) Hstep)
      as (Hg & Hmove & Hnew).
    unfold mutex_inv; simpl. split; [|split].
    + intros j tj Hj. apply nth_error_pool in Hj as [[-> ->]|[[Hne Hj]|Hin]].
      * exact Hg.
      * eapply Hok; eauto.
      * destruct (Hnew _ Hin) as [-> Hc]. exact Hc.
    + intros j tj Hj Hh. apply nth_error_pool in Hj as [[-> ->]|[[Hne Hj]|Hin]].
      * simpl in Hh. subst h.
        destruct Hmove as [[Hh Hm]|[(_ & _ & _ & Hm)|(_ & Hf & _)]];
          [|exact Hm|discriminate].
        rewrite Hm. eapply Hmu; eauto.
      * pose proof (Hmu _ _ Hj Hh) as Hm.
        destruct Hmove as [[_ Hm']|[(_ & Hf & _)|(Ht & _ & _)]].
        -- now rewrite Hm'.
        -- rewrite Hm in Hf; discriminate.
        -- exfalso. apply Hne. eapply Huniq; eauto.
      * destruct (Hnew _ Hin) as [Hf _]. rewrite Hf in Hh; discriminate.
    + intros j1 j2 t1 t2 H1 H2 Hh1 Hh2.
      apply nth_error_pool in H1 as [[-> ->]|[[Hne1 H1]|Hin1]];
        apply nth_error_pool in H2 as [[-> ->]|[[Hne2 H2]|Hin2]];
        try reflexivity;
        try (destruct (Hnew _ Hin1) as [Hf _]; rewrite Hf in Hh1; discriminate);
        try (destruct (Hnew _ Hin2) as [Hf _]; rewrite Hf in Hh2; discriminate).
      * simpl in Hh1. subst h.
        destruct Hmove as [[Hh _]|[(_ & Hf & _)|(_ & Hf & _)]];
          [|pose proof (Hmu _ _ H2 Hh2) as Hm; rewrite Hm in Hf|];
          try discriminate.
        eapply Huniq; eauto.
      * simpl in Hh2. subst h.
        destruct Hmove as [[Hh _]|[(_ & Hf & _)|(_ & Hf & _)]];
          [|pose proof (Hmu _ _ H1 Hh1) as Hm; rewrite Hm in Hf|];
          try discriminate.
        eapply Huniq; eauto.
      * eapply Huniq; eauto.
  - unfold mutex_inv; simpl. split; [|split]; auto.
    intros j tj Hj Hh. rewrite (step_goroutine_dead _ _ _ Hstep). eauto.
Qed.

Lemma mutex_inv_step (s s' : System) :
  mutex_inv s -> sys_step s s' -> mutex_inv s'.
Proof.
  intros Hinv Hstep. destruct Hstep as [i s s' Hs|s _|s f _].
  - eapply mutex_inv_sched; eauto.
  - exact Hinv.
  - exact Hinv.
Qed.

Lemma mutex_inv_execAgent (w : World) :
  mu (agent w) = false -> mutex_inv (execAgent w).
Proof.
  intros Hmu. unfold mutex_inv, execAgent; simpl. split; [|split].
  - intros [|[|[|i]]] t H; simpl in H; inversion H; subst;
      cbv beta iota delta [code holds].
    + exact (spawn_ok GoServe).
    + exact (spawn_ok GoSignalLoop).
    + simpl. auto.
    + destruct i; discriminate.
  - intros [|[|[|i]]] t H Hh; simpl in H; inversion H; subst;
      try discriminate. destruct i; discriminate.
  - intros [|[|[|i]]] j ti tj H _ Hh; simpl in H; inversion H; subst;
      try discriminate. destruct i; discriminate.
Qed.

Lemma mutex_inv_reachable (w : World) (s : System) :
  mu (agent w) = false -> reachable (execAgent w) s -> mutex_inv s.
Proof.
  intros Hmu Hr. induction Hr as [|s s' _ IH Hstep].
  - now apply mutex_inv_execAgent.
  - eapply mutex_inv_step; eauto.
Qed.

Lemma exec_dead (cs : list choice) (s : System) :
  state s <> Alive -> state (exec cs s) <> Alive.
Proof.
  revert s; induction cs as [|c cs IH]; intros s Hs; simpl; auto.
  destruct c as [i|]; [|apply IH; exact Hs].
  unfold sched. destruct (state s) eqn:E; try (apply IH; congruence).
  congruence.
Qed.

(** A run of the scheduler is a path of the process. *)
Lemma reachable_exec (cs : list choice) (s0 s : System) :
  state (exec cs s) = Alive ->
  reachable s0 s -> reachable s0 (exec cs s).
Proof.
  revert s; induction cs as [|c cs IH]; intros s Halive Hr; simpl in *; auto.
  destruct c as [i|].
  - destruct (sched i s) as [s'|] eqn:Hs; apply IH; auto.
    eapply reach_step; eauto. now apply step_sched with i.
  - apply IH; auto. destruct (state s) eqn:Hst.
    + eapply reach_step; eauto. now apply step_signal.
    + exfalso. apply (@exec_dead cs (deliver_SIGHUP s)); [simpl; congruence|exact Halive].
    + exfalso. apply (@exec_dead cs (deliver_SIGHUP s)); [simpl; congruence|exact Halive].
Qed.

(** C1.  In every state the process can reach from [execAgent], under
    any scheduling of any number of connections, signals and storage
    changes: at most one goroutine holds the Agent's mutex; a goroutine
    that is inside the body of a key-bearing operation ([List], [Sign],
    [SignWithFlags], [Signers]) holds it, from the first effect of the body
    to the deferred unlock; and the mutex is locked while it is held.  So
    no two key-bearing operations overlap. *)
Theorem mutual_exclusion (w : World) (s : System) :
  mu (agent w) = false ->
  reachable (execAgent w) s ->
  (forall i j ti tj,
      nth_error (pool s) i = Some ti -> nth_error (pool s) j = Some tj ->
      holds ti = true -> holds tj = true -> i = j) /\
  (forall i j ti tj,
      nth_error (pool s) i = Some ti -> nth_error (pool s) j = Some tj ->
      in_key_operation (code ti) = true -> in_key_operation (code tj) = true ->
      i = j) /\
  (forall i t,
      nth_error (pool s) i = Some t -> in_key_operation (code t) = true ->
      holds t = true) /\
  (forall i t,
      nth_error (pool s) i = Some t -> holds t = true ->
      mu (agent (world s)) = true).
Proof.
  intros Hmu Hr.
  destruct (mutex_inv_reachable Hmu Hr) as (Hok & Hlocked & Huniq).
  assert (Hkey : forall i t, nth_error (pool s) i = Some t ->
                 in_key_operation (code t) = true -> holds t = true).
  { intros i t Hi Hin. specialize (Hok _ _ Hi).
    assert (Hp : forall (A : Type) (p : prog A),
               bracketed (holds t) p -> next_is_key p = true -> holds t = true).
    { intros A p Hb Hn. destruct p as [a|m|m|g k|X e k]; simpl in Hn;
        try discriminate.
      destruct Hb as [Hl _]. destruct e; simpl in *; auto; discriminate. }
    destruct (code t) as [cur|cur body after|cur]; simpl in *.
    - eapply Hp; eauto.
    - destruct Hok as (Hc & _). eapply Hp; eauto.
    - eapply Hp; eauto. }
  repeat split; eauto.
Qed.

End Concurrency.

(** * Further properties of the operations *)

Section Operations.
Context `{Ext : Externals}.

(** [Signers] on a free mutex, by what the storage holds. *)
Lemma run_Signers (w : World) (dir : string) :
  mu (agent w) = false ->
  run getAgentStorage w = Returned dir w ->
  run Signers w =
  Returned
    match files w (path_Join dir "ssh.key") with
    | Err err => Err err
    | Ok b =>
        match UnmarshalKey b with
        | Err err => Err err
        | Ok key =>
            match NewSignerFromSigner (NewTPMSigner key (tpm (agent w))) with
            | Err err => Err (Errorf_w "failed to prepare signer: " err)
            | Ok s => Ok [s]
            end
        end
    end w.
Proof.
  intros Hmu Hdir. unfold Signers.
  rewrite run_locked by (auto using keyonly_signers).
  rewrite (run_signers (getAgentStorage_locked _ Hdir)). simpl.
  now rewrite relock_world.
Qed.

(** [SignWithFlags] on a free mutex, by what the storage holds. *)
Lemma run_SignWithFlags_resolved (w : World) (dir : string) key data flags :
  mu (agent w) = false ->
  run getAgentStorage w = Returned dir w ->
  run (SignWithFlags key data flags) w =
  match files w (path_Join dir "ssh.key") with
  | Err err => Returned (Err err) w
  | Ok b =>
      match UnmarshalKey b with
      | Err err => Returned (Err err) w
      | Ok k =>
          match NewSignerFromSigner (NewTPMSigner k (tpm (agent w))) with
          | Err err => Returned (Err (Errorf_w "failed to prepare signer: " err)) w
          | Ok s =>
              if bytes_Equal (pk_Marshal (Signer_PublicKey s)) (pk_Marshal key)
              then Returned
                     (fst (SignWithAlgorithm s (device w) data (pk_Type key)))
                     (set_device w
                        (snd (SignWithAlgorithm s (device w) data (pk_Type key))))
              else Returned
                     (Err (errors_New "no private keys match the requested public key"))
                     w
          end
      end
  end.
Proof.
  intros Hmu Hdir. unfold SignWithFlags.
  rewrite run_locked by (auto using keyonly_SignWithFlags_body).
  rewrite run_bind, (run_signers (getAgentStorage_locked _ Hdir)). simpl.
  destruct (files w (path_Join dir "ssh.key")) as [b|e]; simpl;
    [|now rewrite relock_world].
  destruct (UnmarshalKey b) as [k|e]; simpl; [|now rewrite relock_world].
  destruct (NewSignerFromSigner (NewTPMSigner k (tpm (agent w)))) as [s|e];
    simpl; [|now rewrite relock_world].
  destruct (bytes_Equal _ _); simpl.
  - destruct (SignWithAlgorithm s (device w) data (pk_Type key)) as [r d]. simpl.
    now rewrite relock_device.
  - now rewrite relock_world.
Qed.

(** X1.  [Signers] on a free mutex with the storage path resolved: when
    the key file reads, deserializes and the ssh signer is built, it
    returns exactly that one signer; a read or deserialization error is
    returned as it is; an error of [ssh.NewSignerFromSigner] is returned
    wrapped, its message prefixed with "failed to prepare signer: ".  The
    world, mutex included, is left as it was. *)
Theorem Signers_result (w : World) (dir : string) :
  mu (agent w) = false ->
  run getAgentStorage w = Returned dir w ->
  (forall b k s,
      files w (path_Join dir "ssh.key") = Ok b -> UnmarshalKey b = Ok k ->
      NewSignerFromSigner (NewTPMSigner k (tpm (agent w))) = Ok s ->
      run Signers w = Returned (Ok [s]) w) /\
  (forall err,
      files w (path_Join dir "ssh.key") = Err err ->
      run Signers w = Returned (Err err) w) /\
  (forall b err,
      files w (path_Join dir "ssh.key") = Ok b -> UnmarshalKey b = Err err ->
      run Signers w = Returned (Err err) w) /\
  (forall b k err,
      files w (path_Join dir "ssh.key") = Ok b -> UnmarshalKey b = Ok k ->
      NewSignerFromSigner (NewTPMSigner k (tpm (agent w))) = Err err ->
      run Signers w =
      Returned (Err (mkError ("failed to prepare signer: " ++ err_msg err) None)) w).
Proof.
  intros Hmu Hdir. rewrite (run_Signers Hmu Hdir).
  split; [|split; [|split]]; intros.
  - rewrite H, H0, H1. reflexivity.
  - rewrite H. reflexivity.
  - rewrite H, H0. reflexivity.
  - rewrite H, H0, H1. reflexivity.
Qed.

(** X2.  When the stored key does not load, [SignWithFlags] returns the
    loading error (the read error, the deserialization error, or the
    wrapped signer error) whatever key is requested, and does not reach
    the TPM: the world, device included, is left as it was. *)
Theorem SignWithFlags_load_failure (w : World) (dir : string)
        (key : PublicKey) (data : bytes) (flags : SignatureFlags) :
  mu (agent w) = false ->
  run getAgentStorage w = Returned dir w ->
  (forall err,
      files w (path_Join dir "ssh.key") = Err err ->
      run (SignWithFlags key data flags) w = Returned (Err err) w) /\
  (forall b err,
      files w (path_Join dir "ssh.key") = Ok b -> UnmarshalKey b = Err err ->
      run (SignWithFlags key data flags) w = Returned (Err err) w) /\
  (forall b k err,
      files w (path_Join dir "ssh.key") = Ok b -> UnmarshalKey b = Ok k ->
      NewSignerFromSigner (NewTPMSigner k (tpm (agent w))) = Err err ->
      run (SignWithFlags key data flags) w =
      Returned (Err (mkError ("failed to prepare signer: " ++ err_msg err) None)) w).
Proof.
  intros Hmu Hdir. rewrite (run_SignWithFlags_resolved key data flags Hmu Hdir).
  split; [|split]; intros.
  - rewrite H. reflexivity.
  - rewrite H, H0. reflexivity.
  - rewrite H, H0, H1. reflexivity.
Qed.

(** X3.  A listed key signs.  When the key loads and the signer built
    from it presents the public key that [List] derives from it, the
    record [List] returns, handed back as the requested key (its format
    as type, its blob as marshaled bytes), is matched by [SignWithFlags],
    which returns what the signer produces for the record's format. *)
Theorem listed_key_signs (w : World) (dir : string) (b : bytes) (k : Key)
        (pk : PublicKey) (s : Signer) (data : bytes) (flags : SignatureFlags) :
  mu (agent w) = false ->
  run getAgentStorage w = Returned dir w ->
  files w (path_Join dir "ssh.key") = Ok b ->
  UnmarshalKey b = Ok k ->
  SSHPublicKey k = Ok pk ->
  NewSignerFromSigner (NewTPMSigner k (tpm (agent w))) = Ok s ->
  pk_Marshal (Signer_PublicKey s) = pk_Marshal pk ->
  exists rec,
    run List w = Returned (Ok [rec]) w /\
    run (SignWithFlags (mkPublicKey (Format rec) (Blob rec)) data flags) w =
    Returned (fst (SignWithAlgorithm s (device w) data (pk_Type pk)))
             (set_device w (snd (SignWithAlgorithm s (device w) data (pk_Type pk)))).
Proof.
  intros Hmu Hdir Hf Hk Hpk Hs Hsame.
  exists (mkAgentKey (pk_Type pk) (pk_Marshal pk) ""). split.
  - rewrite (run_List Hmu Hdir), Hf, Hk, Hpk. reflexivity.
  - rewrite (run_SignWithFlags_resolved _ data flags Hmu Hdir), Hf, Hk, Hs.
    simpl. rewrite Hsame.
    replace (bytes_Equal (pk_Marshal pk) (pk_Marshal pk)) with true
      by (symmetry; now apply bytes_Equal_true).
    reflexivity.
Qed.


Lemma getAgentStorage_set_files (w : World) (dir : string)
      (f : string -> result bytes) :
  run getAgentStorage w = Returned dir w ->
  run getAgentStorage (set_files w f) = Returned dir (set_files w f).
Proof.
  rewrite !run_getAgentStorage. simpl.
  destruct (env w "XDG_DATA_HOME"); [|destruct (home w)];
    intros H; inversion H; subst; reflexivity.
Qed.


(** X5.  The key-bearing operations read one file, [ssh.key] in the
    storage directory: rewriting any other file of the storage leaves the
    way [List], [Signers], [Sign] and [SignWithFlags] end unchanged. *)
Theorem only_key_file_is_read (w : World) (dir : string)
        (f : string -> result bytes)
        (key : PublicKey) (data : bytes) (flags : SignatureFlags) :
  mu (agent w) = false ->
  run getAgentStorage w = Returned dir w ->
  f (path_Join dir "ssh.key") = files w (path_Join dir "ssh.key") ->
  verdict_of (run List (set_files w f)) = verdict_of (run List w) /\
  verdict_of (run Signers (set_files w f)) = verdict_of (run Signers w) /\
  verdict_of (run (Sign key data) (set_files w f)) =
    verdict_of (run (Sign key data) w) /\
  verdict_of (run (SignWithFlags key data flags) (set_files w f)) =
    verdict_of (run (SignWithFlags key data flags) w).
Proof.
  intros Hmu Hdir Hf.
  pose proof (getAgentStorage_set_files f Hdir) as Hdir'.
  assert (Hmu' : mu (agent (set_files w f)) = false) by exact Hmu.
  assert (HS : forall fl,
             verdict_of (run (SignWithFlags key data fl) (set_files w f)) =
             verdict_of (run (SignWithFlags key data fl) w)).
  { intros fl.
    rewrite (run_SignWithFlags_resolved key data fl Hmu' Hdir'),
            (run_SignWithFlags_resolved key data fl Hmu Hdir).
    simpl. rewrite Hf.
    destruct (files w (path_Join dir "ssh.key")) as [b|e]; [|reflexivity].
    destruct (UnmarshalKey b) as [k|e]; [|reflexivity].
    destruct (NewSignerFromSigner (NewTPMSigner k (tpm (agent w)))) as [s|e];
      [|reflexivity].
    destruct (bytes_Equal _ _); reflexivity. }
  split; [|split; [|split]].
  - rewrite (run_List Hmu' Hdir'), (run_List Hmu Hdir). simpl. now rewrite Hf.
  - rewrite (run_Signers Hmu' Hdir'), (run_Signers Hmu Hdir). simpl.
    now rewrite Hf.
  - apply HS.
  - apply HS.
Qed.




(** X7.  When [Accept] hands a connection to the loop of [serve], the
    wait group grows by one, one handler goroutine is started for that
    connection, nothing is logged, and the loop goes on; while the
    listener is open and no connection is waiting, the loop blocks in
    [Accept]. *)
Theorem serve_accept_connection (w : World) :
  (0 <= wg (agent w))%Z ->
  (forall c w',
      handle ListenerAccept w = Done (Ok c) w' ->
      run serve_body w =
      Returned Continue
        (add_started (set_agent w' (set_wg (agent w') (wg (agent w) + 1)%Z))
                     (GoServeConn c)) /\
      out w' = out w /\
      forall n,
        serve_loop (S n) w =
        serve_loop n
          (add_started (set_agent w' (set_wg (agent w') (wg (agent w) + 1)%Z))
                       (GoServeConn c))) /\
  (handle ListenerAccept w = Blocks ->
   run serve_body w = Blocked w /\
   forall n, serve_loop (S n) w = Some (Blocked w)).
Proof.
  intros Hwg. split.
  - intros c w' Hacc.
    destruct (accept_frame _ Hacc) as (_ & Hout & Hw).
    assert (Hbody : run serve_body w =
      Returned Continue
        (add_started (set_agent w' (set_wg (agent w') (wg (agent w) + 1)%Z))
                     (GoServeConn c))).
    { unfold serve_body. rewrite run_bind.
      change (run (trigger ListenerAccept) w) with
        (match handle ListenerAccept w with
         | Done x w1 => Returned x w1
         | Blocks => Blocked w
         | Throws m => Panicked m w
         end).
      rewrite Hacc. simpl. rewrite Hw.
      replace (wg (agent w) + 1 <? 0)%Z with false; [reflexivity|].
      symmetry. apply Z.ltb_ge. apply Z.add_nonneg_nonneg; [exact Hwg|discriminate]. }
    split; [exact Hbody|]. split; [exact Hout|].
    intros n. change (serve_loop (S n) w) with
      (match run serve_body w with
       | Returned Continue w1 => serve_loop n w1
       | Returned Break w1 => Some (run (trigger WgDone) w1)
       | Panicked m w1 => Some (Panicked m w1)
       | Exited m w1 => Some (Exited m w1)
       | Blocked w1 => Some (Blocked w1)
       end).
    now rewrite Hbody.
  - intros Hacc.
    assert (Hbody : run serve_body w = Blocked w).
    { unfold serve_body. rewrite run_bind.
      change (run (trigger ListenerAccept) w) with
        (match handle ListenerAccept w with
         | Done x w1 => Returned x w1
         | Blocks => Blocked w
         | Throws m => Panicked m w
         end).
      now rewrite Hacc. }
    split; [exact Hbody|].
    intros n. change (serve_loop (S n) w) with
      (match run serve_body w with
       | Returned Continue w1 => serve_loop n w1
       | Returned Break w1 => Some (run (trigger WgDone) w1)
       | Panicked m w1 => Some (Panicked m w1)
       | Exited m w1 => Some (Exited m w1)
       | Blocked w1 => Some (Blocked w1)
       end).
    now rewrite Hbody.
Qed.


End Operations.

(** * Shutdown *)

Section Shutdown.
Context `{Ext : Externals}.

Lemma quit_first_mono (A : Type) (p : prog A) (q q' : bool) :
  (q = true -> q' = true) -> quit_first q p -> quit_first q' p.
Proof.
  revert q q'; induction p as [a|m|m|g k IH|X e k IH]; intros q q' Hq; simpl; auto.
  - apply IH; exact Hq.
  - intros [Hc Hk]. split; [auto|].
    intros x. apply (IH x (q || closes_quit e)%bool (q' || closes_quit e)%bool); auto.
    destruct q, q'; simpl; auto. discriminate (Hq eq_refl).
Qed.

Lemma quit_first_bind (A B : Type) (p : prog A) (f : A -> prog B) (q : bool) :
  quit_first q p -> (forall a, quit_first false (f a)) -> quit_first q (bind p f).
Proof.
  revert q; induction p as [a|m|m|g k IH|X e k IH]; intros q; simpl; auto.
  - intros _ Hf. apply quit_first_mono with false; [discriminate|apply Hf].
  - intros [Hc Hk] Hf. split; auto.
Qed.

Lemma keyonly_quit_first (A : Type) (p : prog A) (q : bool) :
  keyonly p -> quit_first q (defer MuUnlock p).
Proof.
  revert q; induction p as [a|m|m|g k IH|X e k IH]; intros q; simpl;
    try contradiction.
  - intros _. split; [discriminate|auto].
  - intros _. split; [discriminate|auto].
  - intros [He Hk]. split.
    + destruct e; simpl in *; discriminate.
    + intros x. apply IH, Hk.
Qed.

Lemma locked_quit_first (A : Type) (p : prog A) :
  keyonly p -> quit_first false (trigger MuLock ;;; defer MuUnlock p).
Proof.
  intros Hp. simpl. split; [discriminate|]. intros _.
  now apply keyonly_quit_first.
Qed.

Lemma dispatch_quit_first (r : request) : quit_first false (dispatch r).
Proof.
  destruct r; cbv beta iota delta [dispatch];
    try exact I;
    apply quit_first_bind; try (intros; exact I).
  - apply locked_quit_first, keyonly_List_body.
  - apply locked_quit_first, keyonly_signers.
  - apply locked_quit_first, keyonly_SignWithFlags_body.
  - apply locked_quit_first, keyonly_SignWithFlags_body.
Qed.

Lemma serve_requests_quit_first (rs : list request) :
  quit_first false (serve_requests rs).
Proof.
  induction rs as [|r rs IH]; simpl; [exact I|].
  apply quit_first_bind; auto using dispatch_quit_first.
Qed.

Lemma handler_quit_first (c : Conn) :
  quit_first false (serveConn c ;;; trigger WgDone).
Proof.
  apply quit_first_bind; [|intros; simpl; split; [discriminate|auto]].
  unfold serveConn, ServeAgent. apply quit_first_bind.
  - apply quit_first_bind; [apply serve_requests_quit_first|].
    intros; exact I.
  - intros err. destruct (negb (is_EOF err)); simpl; auto.
Qed.

Lemma serve_body_quit_first : quit_first false serve_body.
Proof.
  unfold serve_body. simpl. split; [discriminate|]. intros [c|err]; simpl.
  - split; [discriminate|auto].
  - destruct (is_temporary err); simpl.
    + split; [discriminate|]. intros _. split; [discriminate|auto].
    + split; [discriminate|]. intros []; exact I.
Qed.

Lemma signal_body_quit_first : quit_first false signal_body.
Proof.
  unfold signal_body, Stop. simpl.
  split; [discriminate|]. intros _.
  split; [discriminate|]. intros _.
  split; [reflexivity|]. intros _.
  split; [discriminate|]. intros _.
  split; [discriminate|]. auto.
Qed.

Lemma spawn_quit_first (g : gofn) (q : bool) : goroutine_quit_first q (spawn g).
Proof.
  destruct g; cbv beta iota delta [spawn serve goroutine_quit_first].
  - split; [|split]; try exact serve_body_quit_first.
    + apply quit_first_mono with false; [discriminate|exact serve_body_quit_first].
    + simpl. split; [discriminate|auto].
  - apply quit_first_mono with false; [discriminate|exact (handler_quit_first c)].
  - split; [|split]; try exact signal_body_quit_first.
    + apply quit_first_mono with false; [discriminate|exact signal_body_quit_first].
    + exact I.
Qed.

Lemma goroutine_quit_first_mono (g : goroutine) (q q' : bool) :
  (q = true -> q' = true) ->
  goroutine_quit_first q g -> goroutine_quit_first q' g.
Proof.
  intros Hq. destruct g as [p|cur body after|p]; simpl.
  - now apply quit_first_mono.
  - intros (Hc & Hb & Ha). split; [|split]; auto.
    revert Hc. now apply quit_first_mono.
  - now apply quit_first_mono.
Qed.

(** One effect keeps the order: the quit channel stays closed once it is,
    and the listener is closed only under a closed quit channel. *)
Lemma handle_shutdown (X : Type) (e : eff X) (w w' : World) (x : X) :
  (closes_listener e = true -> quit (agent w) = true) ->
  (l_closed (listener (agent w)) = true -> quit (agent w) = true) ->
  handle e w = Done x w' ->
  quit (agent w') = (quit (agent w) || closes_quit e)%bool /\
  (l_closed (listener (agent w')) = true -> quit (agent w') = true).
Proof.
  intros Hc Hinv. destruct e; simpl; intros Hh;
    try (inversion Hh; subst; simpl; rewrite ?orb_false_r; split; auto; fail).
  - destruct (mu (agent w)); [discriminate|].
    inversion Hh; subst; simpl. rewrite orb_false_r. auto.
  - destruct (mu (agent w)); [|discriminate].
    inversion Hh; subst; simpl. rewrite orb_false_r. auto.
  - destruct (SignWithAlgorithm s (device w) data algo).
    inversion Hh; subst; simpl. rewrite orb_false_r. auto.
  - destruct (quit (agent w)) eqn:Hq; [discriminate|].
    inversion Hh; subst; simpl. auto.
  - destruct (l_closed (listener (agent w))) eqn:Hl.
    + inversion Hh; subst. rewrite orb_false_r. split; auto.
    + destruct (l_pending (listener (agent w))); [discriminate|].
      inversion Hh; subst; simpl. rewrite orb_false_r. split; [auto|discriminate].
  - destruct (wg (agent w) + delta <? 0)%Z; [discriminate|].
    inversion Hh; subst; simpl. rewrite orb_false_r. auto.
  - destruct (wg (agent w) =? 0)%Z; [|discriminate].
    inversion Hh; subst. rewrite orb_false_r. auto.
  - destruct (sighup w); [discriminate|].
    inversion Hh; subst; simpl. rewrite orb_false_r. auto.
Qed.

Lemma advance_dies_agent (A : Type) (p : prog A) (h : bool) (w w' : World)
      (st : status) :
  advance p h w = Dies st w' -> agent w' = agent w.
Proof.
  destruct p as [a0|m|m|g0 k|X e k]; simpl; try discriminate.
  - intros H; inversion H; reflexivity.
  - intros H; inversion H; reflexivity.
  - destruct (handle e w); try discriminate. intros H; inversion H; reflexivity.
Qed.

Lemma step_goroutine_dead_agent (g : goroutine) (h : bool) (w w' : World)
      (st : status) :
  step_goroutine g h w = Dead st w' -> agent w' = agent w.
Proof.
  destruct g as [cur|cur body after|cur]; simpl;
    destruct (advance cur h w) as [p w1 h1|f p|a| |st1 w1] eqn:Ha;
    try discriminate;
    try solve [intros H; inversion H; subst; eapply advance_dies_agent; eauto].
  - destruct a; discriminate.
  - intros H; inversion H; reflexivity.
Qed.

Lemma advance_shutdown (A : Type) (p p' : prog A) (h h' : bool) (w w' : World) :
  quit_first (quit (agent w)) p ->
  (l_closed (listener (agent w)) = true -> quit (agent w) = true) ->
  advance p h w = Next p' w' h' ->
  quit_first (quit (agent w')) p' /\
  (quit (agent w) = true -> quit (agent w') = true) /\
  (l_closed (listener (agent w')) = true -> quit (agent w') = true).
Proof.
  destruct p as [a|m|m|g k|X e k]; simpl; try discriminate.
  intros [Hc Hk] Hinv. destruct (handle e w) as [x w1| |m] eqn:Hh; try discriminate.
  intros H; inversion H; subst.
  destruct (@handle_shutdown _ _ _ _ _ Hc Hinv Hh) as [Hq Hl].
  split; [rewrite Hq; apply Hk|]. split; [|exact Hl].
  intros Ht. rewrite Hq, Ht. reflexivity.
Qed.

Lemma step_goroutine_shutdown (g g' : goroutine) (h h' : bool) (w w' : World)
      (new : list thread) :
  goroutine_quit_first (quit (agent w)) g ->
  (l_closed (listener (agent w)) = true -> quit (agent w) = true) ->
  step_goroutine g h w = Moved g' w' h' new ->
  goroutine_quit_first (quit (agent w')) g' /\
  (quit (agent w) = true -> quit (agent w') = true) /\
  (l_closed (listener (agent w')) = true -> quit (agent w') = true) /\
  (forall t, In t new -> goroutine_quit_first (quit (agent w')) (code t)).
Proof.
  intros Hg Hinv.
  assert (Hnil : forall q (t : thread), In t [] -> goroutine_quit_first q (code t))
    by (intros q t []).
  assert (Hone : forall q f (t : thread), In t [mkThread (spawn f) false] ->
             goroutine_quit_first q (code t)).
  { intros q f t [<-|[]]. apply spawn_quit_first. }
  assert (Hfork : forall (A : Type) (p p' : prog A) f q,
             quit_first q p -> advance p h w = Forks f p' -> quit_first q p').
  { intros A p p' f q Hp. destruct p as [a|m|m|g0 k|X e k]; simpl; try discriminate.
    - intros H; inversion H; subst; exact Hp.
    - destruct (handle e w); discriminate. }
  destruct g as [cur|cur body after|cur]; simpl in *.
  - destruct (advance cur h w) as [p w1 h1|f p|a| |st w1] eqn:Ha;
      try discriminate; intros H; inversion H; subst.
    + destruct (@advance_shutdown _ _ _ _ _ _ _ Hg Hinv Ha) as (H1 & H2 & H3).
      repeat split; auto.
    + simpl. repeat split; eauto.
  - destruct Hg as (Hc & Hb & Haf).
    destruct (advance cur h w) as [p w1 h1|f p|a| |st w1] eqn:Ha;
      try discriminate.
    + intros H; inversion H; subst.
      destruct (@advance_shutdown _ _ _ _ _ _ _ Hc Hinv Ha) as (H1 & H2 & H3).
      repeat split; auto.
    + intros H; inversion H; subst. simpl. repeat split; eauto.
    + destruct a; intros H; inversion H; subst; simpl; repeat split; auto;
        apply quit_first_mono with false; auto; discriminate.
  - destruct (advance cur h w) as [p w1 h1|f p|a| |st w1] eqn:Ha;
      try discriminate; intros H; inversion H; subst.
    + destruct (@advance_shutdown _ _ _ _ _ _ _ Hg Hinv Ha) as (H1 & H2 & H3).
      repeat split; auto.
    + simpl. repeat split; eauto.
Qed.

Lemma shutdown_inv_sched (i : nat) (s s' : System) :
  shutdown_inv s -> sched i s = Some s' -> shutdown_inv s'.
Proof.
  intros (Hl & Hok). unfold sched.
  destruct (state s); try discriminate.
  destruct (nth_error (pool s) i) as [t|] eqn:Hi; try discriminate.
  destruct (step_goroutine (code t) (holds t) (world s))
    as [g w h new| |st w] eqn:Hstep; try discriminate;
    intros H; inversion H; subst; clear H.
  - destruct (@step_goroutine_shutdown _ _ _ _ _ _ _ (Hok _ _ Hi) Hl Hstep)
      as (Hg & Hq & Hl' & Hnew).
    unfold shutdown_inv; simpl. split; [exact Hl'|].
    intros j tj Hj. apply nth_error_pool in Hj as [[-> ->]|[[Hne Hj]|Hin]].
    + exact Hg.
    + apply goroutine_quit_first_mono with (quit (agent (world s))); eauto.
    + auto.
  - pose proof (@step_goroutine_dead_agent _ _ _ _ _ Hstep) as Hag.
    unfold shutdown_inv; simpl. rewrite Hag. split; auto.
Qed.

Lemma shutdown_inv_reachable (w : World) (s : System) :
  l_closed (listener (agent w)) = false ->
  reachable (execAgent w) s -> shutdown_inv s.
Proof.
  intros Hopen Hr. induction Hr as [|s s' _ IH Hstep].
  - unfold shutdown_inv, execAgent; simpl. split.
    + rewrite Hopen. discriminate.
    + intros [|[|[|i]]] t H; simpl in H; inversion H; subst;
        cbv beta iota delta [code].
      * exact (spawn_quit_first GoServe _).
      * exact (spawn_quit_first GoSignalLoop _).
      * simpl. split; [discriminate|auto].
      * destruct i; discriminate.
  - destruct Hstep as [i s s' Hs|s _|s f _].
    + eapply shutdown_inv_sched; eauto.
    + exact IH.
    + exact IH.
Qed.

(** X8.  In the process [execAgent] starts on an open listener, the
    listener is closed only by [Stop], after it has closed the quit
    channel.  So whenever the accept loop finds the listener closed, it
    finds the quit channel closed too and leaves by [return]: closing the
    listener never ends in [log.Fatalln]. *)
Theorem shutdown_never_fatal (w : World) (s : System) :
  l_closed (listener (agent w)) = false ->
  reachable (execAgent w) s ->
  l_closed (listener (agent (world s))) = true ->
  quit (agent (world s)) = true /\
  run serve_body (world s) = Returned Break (world s) /\
  forall n, serve_loop (S n) (world s) = Some (run (trigger WgDone) (world s)).
Proof.
  intros Hopen Hr Hclosed.
  destruct (shutdown_inv_reachable Hopen Hr) as (Hl & _).
  pose proof (Hl Hclosed) as Hq.
  assert (Hbody : run serve_body (world s) = Returned Break (world s)).
  { unfold serve_body. simpl. rewrite Hclosed. simpl. rewrite Hq. reflexivity. }
  split; [exact Hq|]. split; [exact Hbody|].
  intros n. change (serve_loop (S n) (world s)) with
    (match run serve_body (world s) with
     | Returned Continue w1 => serve_loop n w1
     | Returned Break w1 => Some (run (trigger WgDone) w1)
     | Panicked m w1 => Some (Panicked m w1)
     | Exited m w1 => Some (Exited m w1)
     | Blocked w1 => Some (Blocked w1)
     end).
  now rewrite Hbody.
Qed.

(** X13.  A SIGHUP shuts an agent down in order.  From [execAgent] on
    any world with the quit channel and the listener open, the counter at
    one and no signal pending, the run [stop_idle] ends with the process
    alive, the quit channel and the listener closed, the wait group at
    zero and "stopped?" printed last; the connections that were waiting
    on the listener are not accepted and no handler is started; the
    storage and the mutex are not touched. *)
Theorem Stop_shuts_idle_agent_down (w : World) :
  quit (agent w) = false ->
  l_closed (listener (agent w)) = false ->
  wg (agent w) = 1%Z ->
  sighup w = 0 ->
  state (exec stop_idle (execAgent w)) = Alive /\
  agent (world (exec stop_idle (execAgent w))) =
    mkAgent (mu (agent w)) (tpm (agent w))
            (mkListener true (l_pending (listener (agent w)))) true 0 /\
  out (world (exec stop_idle (execAgent w))) = EvPrint "stopped?" :: out w /\
  started (world (exec stop_idle (execAgent w))) =
    GoSignalLoop :: GoServe :: started w /\
  sighup (world (exec stop_idle (execAgent w))) = 0 /\
  (forall name, files (world (exec stop_idle (execAgent w))) name = files w name).
Proof.
  destruct w as [[m t [lc lp] q n] e h f d sg st o]. simpl.
  intros -> -> -> ->. repeat split.
Qed.

End Shutdown.

(** * The wait group *)

Section WaitGroup.
Context `{Ext : Externals}.

Lemma owes_bind (A B : Type) (lo hi : Z) (p : prog A) (f : A -> prog B)
      (d : Z) (Q' : A -> Z -> Prop) (Q : B -> Z -> Prop) :
  owes lo hi p d Q' ->
  (forall a d', Q' a d' -> owes lo hi (f a) d' Q) ->
  owes lo hi (bind p f) d Q.
Proof.
  revert d; induction p as [a|m|m|g k IH|X e k IH]; intros d; simpl; auto.
  - intros [Hb Hk] Hf. split; auto.
  - intros [Hb Hk] Hf. split; auto.
Qed.

Lemma owes_keyonly_defer (A : Type) (lo hi : Z) (p : prog A) (d : Z) :
  keyonly p -> (lo <= d <= hi)%Z ->
  owes lo hi (defer MuUnlock p) d (fun _ d' => d' = d).
Proof.
  induction p as [a|m|m|g k IH|X e k IH]; simpl; try contradiction.
  - intros _ Hb. split; [exact Hb|]. intros _. lia.
  - intros _ Hb. split; [exact Hb|]. intros _. lia.
  - intros [He Hk] Hb. split; [exact Hb|]. intros x.
    replace (d + wg_delta e)%Z with d
      by (destruct e; simpl in *; try discriminate; lia).
    now apply IH.
Qed.

Lemma owes_locked (A : Type) (lo hi : Z) (p : prog A) (d : Z) :
  keyonly p -> (lo <= d <= hi)%Z ->
  owes lo hi (trigger MuLock ;;; defer MuUnlock p ;;; Ret tt) d (fun _ d' => d' = d).
Proof.
  intros Hp Hb. simpl. split; [exact Hb|]. intros _.
  replace (d + 0)%Z with d by lia.
  apply owes_bind with (Q' := fun _ d' => d' = d).
  - now apply owes_keyonly_defer.
  - intros _ d' ->. reflexivity.
Qed.

Lemma dispatch_owes (r : request) (lo hi d : Z) :
  (lo <= d <= hi)%Z -> owes lo hi (dispatch r) d (fun _ d' => d' = d).
Proof.
  intros Hb. destruct r; cbv beta iota delta [dispatch]; try reflexivity.
  - exact (@owes_locked _ lo hi _ d keyonly_List_body Hb).
  - exact (@owes_locked _ lo hi _ d keyonly_signers Hb).
  - exact (@owes_locked _ lo hi _ d (keyonly_SignWithFlags_body key data) Hb).
  - exact (@owes_locked _ lo hi _ d (keyonly_SignWithFlags_body key data) Hb).
Qed.

Lemma serve_requests_owes (rs : list request) (lo hi d : Z) :
  (lo <= d <= hi)%Z -> owes lo hi (serve_requests rs) d (fun _ d' => d' = d).
Proof.
  intros Hb. induction rs as [|r rs IH]; simpl; [reflexivity|].
  apply owes_bind with (Q' := fun _ d' => d' = d).
  - now apply dispatch_owes.
  - intros _ d' ->. exact IH.
Qed.

Lemma handler_owes (c : Conn) :
  owes 1 1 (serveConn c ;;; trigger WgDone) 1 (fun _ d' => d' = 0%Z).
Proof.
  apply owes_bind with (Q' := fun _ d' => d' = 1%Z).
  - unfold serveConn, ServeAgent.
    apply owes_bind with (Q' := fun _ d' => d' = 1%Z).
    + apply owes_bind with (Q' := fun _ d' => d' = 1%Z).
      * apply serve_requests_owes. lia.
      * intros _ d' ->. reflexivity.
    + intros err d' ->. destruct (negb (is_EOF err)); simpl; [|reflexivity].
      split; [lia|]. intros _. reflexivity.
  - intros _ d' ->. simpl. split; [lia|]. intros _. reflexivity.
Qed.

Lemma serve_body_owes : owes 1 2 serve_body 1 (fun _ d' => d' = 1%Z).
Proof.
  unfold serve_body. simpl. split; [lia|]. intros [c|err]; simpl.
  - split; [lia|]. intros _. split; [lia|]. reflexivity.
  - destruct (is_temporary err); simpl.
    + split; [lia|]. intros _. split; [lia|]. intros _. reflexivity.
    + split; [lia|]. intros []; simpl; [reflexivity|lia].
Qed.

Lemma signal_body_owes : owes 0 0 signal_body 0 (fun _ d' => d' = 0%Z).
Proof.
  unfold signal_body, Stop. simpl.
  repeat (split; [lia|]; intros _). reflexivity.
Qed.

Lemma spawn_debt (g : gofn) : thread_debt (spawn g) (debt_of g).
Proof.
  destruct g; cbv beta iota delta [spawn serve thread_debt debt_of trigger is_ret WgDone].
  - split; [|split]; try exact serve_body_owes.
    simpl. split; [lia|]. intros _. reflexivity.
  - exact (handler_owes c).
  - split; exact signal_body_owes.
Qed.

Lemma handle_wg (X : Type) (e : eff X) (w w' : World) (x : X) :
  handle e w = Done x w' ->
  wg (agent w') = (wg (agent w) + wg_delta e)%Z.
Proof.
  destruct e; simpl; intros Hh;
    try (inversion Hh; subst; simpl; lia).
  - destruct (mu (agent w)); [discriminate|]. inversion Hh; subst; simpl; lia.
  - destruct (mu (agent w)); [|discriminate]. inversion Hh; subst; simpl; lia.
  - destruct (SignWithAlgorithm s (device w) data algo).
    inversion Hh; subst; simpl; lia.
  - destruct (quit (agent w)); [discriminate|]. inversion Hh; subst; simpl; lia.
  - destruct (l_closed (listener (agent w))).
    + inversion Hh; subst; lia.
    + destruct (l_pending (listener (agent w))); [discriminate|].
      inversion Hh; subst; simpl; lia.
  - destruct (wg (agent w) + delta <? 0)%Z; [discriminate|].
    inversion Hh; subst; simpl; lia.
  - destruct (wg (agent w) =? 0)%Z; [|discriminate]. inversion Hh; subst; lia.
  - destruct (sighup w); [discriminate|]. inversion Hh; subst; simpl; lia.
Qed.

Lemma advance_next_owes (A : Type) (lo hi : Z) (p p' : prog A) (d : Z)
      (Q : A -> Z -> Prop) (h h' : bool) (w w' : World) :
  owes lo hi p d Q -> advance p h w = Next p' w' h' ->
  owes lo hi p' (d + (wg (agent w') - wg (agent w)))%Z Q.
Proof.
  destruct p as [a|m|m|g k|X e k]; simpl; try discriminate.
  intros [Hb Hk]. destruct (handle e w) as [x w1| |m] eqn:Hh; try discriminate.
  intros H; inversion H; subst.
  rewrite (@handle_wg _ _ _ _ _ Hh).
  replace (d + (wg (agent w) + wg_delta e - wg (agent w)))%Z
    with (d + wg_delta e)%Z by lia.
  apply Hk.
Qed.

Lemma advance_forks_owes (A : Type) (lo hi : Z) (p p' : prog A) (d : Z)
      (Q : A -> Z -> Prop) (h : bool) (w : World) (g : gofn) :
  owes lo hi p d Q -> advance p h w = Forks g p' ->
  owes lo hi p' (d - debt_of g)%Z Q.
Proof.
  destruct p as [a|m|m|g0 k|X e k]; simpl; try discriminate.
  - intros [Hb Hk] H; inversion H; subst; exact Hk.
  - destruct (handle e w); discriminate.
Qed.

Lemma advance_finished_owes (A : Type) (lo hi : Z) (p : prog A) (d : Z)
      (Q : A -> Z -> Prop) (h : bool) (w : World) (a : A) :
  owes lo hi p d Q -> advance p h w = Finished a -> Q a d.
Proof.
  destruct p as [a0|m|m|g0 k|X e k]; simpl; try discriminate.
  - intros HQ H; inversion H; subst; exact HQ.
  - destruct (handle e w); discriminate.
Qed.

Lemma step_goroutine_wg (g g' : goroutine) (d : Z) (h h' : bool) (w w' : World)
      (new : list thread) :
  thread_debt g d -> step_goroutine g h w = Moved g' w' h' new ->
  exists d' nds,
    thread_debt g' d' /\
    Forall2 (fun t n => thread_debt (code t) n) new nds /\
    wg (agent w') = (wg (agent w) + (d' - d) + sumZ nds)%Z.
Proof.
  assert (Hone : forall f, Forall2 (fun t n => thread_debt (code t) n)
                                   [mkThread (spawn f) false] [debt_of f]).
  { intros f. constructor; [apply spawn_debt|constructor]. }
  destruct g as [cur|cur body after|cur]; simpl.
  - intros Hd. destruct (advance cur h w) as [p w1 h1|f p|a| |st w1] eqn:Ha;
      try discriminate; intros H; inversion H; subst.
    + exists (d + (wg (agent w') - wg (agent w)))%Z, [].
      split; [eapply advance_next_owes; eauto|]. split; [constructor|].
      simpl. lia.
    + exists (d - debt_of f)%Z, [debt_of f].
      split; [eapply advance_forks_owes; eauto|]. split; [apply Hone|].
      simpl. lia.
  - destruct (is_ret after) eqn:Hafter.
    + intros (Hc & Hb).
      destruct (advance cur h w) as [p w1 h1|f p|a| |st w1] eqn:Ha;
        try discriminate.
      * intros H; inversion H; subst.
        exists (d + (wg (agent w') - wg (agent w)))%Z, [].
        split; [simpl; rewrite Hafter; split;
                [eapply advance_next_owes; eauto|exact Hb]|].
        split; [constructor|]. simpl. lia.
      * intros H; inversion H; subst.
        exists (d - debt_of f)%Z, [debt_of f].
        split; [simpl; rewrite Hafter; split;
                [eapply advance_forks_owes; eauto|exact Hb]|].
        split; [apply Hone|]. simpl. lia.
      * pose proof (@advance_finished_owes _ _ _ _ _ _ _ _ _ Hc Ha) as HQ. simpl in HQ.
        destruct a; intros H; inversion H; subst.
        -- exists 0%Z, []. split; [simpl; rewrite Hafter; auto|].
           split; [constructor|]. simpl. lia.
        -- exists 0%Z, []. split.
           ++ destruct after; try discriminate. reflexivity.
           ++ split; [constructor|]. simpl. lia.
    + intros (Hc & Hb & Haf).
      destruct (advance cur h w) as [p w1 h1|f p|a| |st w1] eqn:Ha;
        try discriminate.
      * intros H; inversion H; subst.
        exists (d + (wg (agent w') - wg (agent w)))%Z, [].
        split; [simpl; rewrite Hafter; split;
                [eapply advance_next_owes; eauto|auto]|].
        split; [constructor|]. simpl. lia.
      * intros H; inversion H; subst.
        exists (d - debt_of f)%Z, [debt_of f].
        split; [simpl; rewrite Hafter; split;
                [eapply advance_forks_owes; eauto|auto]|].
        split; [apply Hone|]. simpl. lia.
      * pose proof (@advance_finished_owes _ _ _ _ _ _ _ _ _ Hc Ha) as HQ. simpl in HQ.
        destruct a; intros H; inversion H; subst.
        -- exists 1%Z, []. split; [simpl; rewrite Hafter; auto|].
           split; [constructor|]. simpl. lia.
        -- exists 1%Z, []. split; [exact Haf|].
           split; [constructor|]. simpl. lia.
  - intros Hd. destruct (advance cur h w) as [p w1 h1|f p|a| |st w1] eqn:Ha;
      try discriminate; intros H; inversion H; subst.
    + exists (d + (wg (agent w') - wg (agent w)))%Z, [].
      split; [eapply advance_next_owes; eauto|]. split; [constructor|].
      simpl. lia.
    + exists (d - debt_of f)%Z, [debt_of f].
      split; [eapply advance_forks_owes; eauto|]. split; [apply Hone|].
      simpl. lia.
Qed.

(** *** Lists of debts *)

Lemma Forall2_nth (A B : Type) (R : A -> B -> Prop) (l : list A) (ds : list B)
      (i : nat) (t : A) :
  Forall2 R l ds -> nth_error l i = Some t ->
  exists d, nth_error ds i = Some d /\ R t d.
Proof.
  intros HF. revert i. induction HF as [|x y l ds Hxy HF IH]; intros i.
  - destruct i; discriminate.
  - destruct i as [|i]; simpl.
    + intros H; inversion H; subst. eauto.
    + apply IH.
Qed.

Lemma Forall2_replace_nth (A B : Type) (R : A -> B -> Prop) (l : list A)
      (ds : list B) (i : nat) (x : A) (y : B) :
  Forall2 R l ds -> R x y -> Forall2 R (replace_nth i x l) (replace_nth i y ds).
Proof.
  intros HF Hxy. revert i. induction HF as [|x0 y0 l ds H0 HF IH]; intros i.
  - destruct i; constructor.
  - destruct i as [|i]; simpl; constructor; auto.
Qed.

Lemma sumZ_replace_nth (ds : list Z) (i : nat) (d d' : Z) :
  nth_error ds i = Some d ->
  sumZ (replace_nth i d' ds) = (sumZ ds - d + d')%Z.
Proof.
  revert i; induction ds as [|y ds IH]; intros i.
  - destruct i; discriminate.
  - destruct i as [|i]; simpl.
    + intros H; inversion H; subst. unfold sumZ; simpl. lia.
    + intros H. apply IH in H. unfold sumZ in *; simpl. lia.
Qed.

Lemma sumZ_app (a b : list Z) : sumZ (a ++ b) = (sumZ a + sumZ b)%Z.
Proof.
  induction a as [|x a IH]; unfold sumZ in *; simpl; lia.
Qed.

(** *** The invariant *)

Lemma wg_inv_sched (i : nat) (s s' : System) :
  wg_inv s -> sched i s = Some s' -> wg_inv s'.
Proof.
  intros (ds & HF & Hsum). unfold sched.
  destruct (state s); try discriminate.
  destruct (nth_error (pool s) i) as [t|] eqn:Hi; try discriminate.
  destruct (step_goroutine (code t) (holds t) (world s))
    as [g w h new| |st w] eqn:Hstep; try discriminate;
    intros H; inversion H; subst; clear H.
  - destruct (@Forall2_nth _ _ _ _ _ _ _ HF Hi) as (d & Hd & Hdebt).
    destruct (@step_goroutine_wg _ _ _ _ _ _ _ _ Hdebt Hstep)
      as (d' & nds & Hg & Hnew & Hwg).
    exists (replace_nth i d' ds ++ nds)%list. simpl. split.
    + apply Forall2_app; [|exact Hnew].
      now apply Forall2_replace_nth.
    + rewrite sumZ_app, (@sumZ_replace_nth ds i d d' Hd), Hwg, Hsum. lia.
  - exists ds. simpl. split; [exact HF|].
    now rewrite (@step_goroutine_dead_agent _ _ _ _ _ _ Hstep).
Qed.

Lemma wg_inv_reachable (w : World) (s : System) :
  wg (agent w) = 1%Z -> reachable (execAgent w) s -> wg_inv s.
Proof.
  intros Hwg Hr. induction Hr as [|s s' _ IH Hstep].
  - exists [1%Z; 0%Z; 0%Z]. unfold execAgent; simpl. split.
    + constructor; [exact (spawn_debt GoServe)|].
      constructor; [exact (spawn_debt GoSignalLoop)|].
      constructor; [|constructor].
      simpl. split; [lia|]. intros _. reflexivity.
    + exact Hwg.
  - destruct Hstep as [i s s' Hs|s _|s f _].
    + eapply wg_inv_sched; eauto.
    + exact IH.
    + exact IH.
Qed.

Lemma owes_bounds (A : Type) (lo hi : Z) (p : prog A) (d r : Z) :
  (0 <= lo)%Z -> (0 <= r)%Z ->
  owes lo hi p d (fun _ d' => d' = r) ->
  (0 <= d)%Z /\ (is_ret p = false -> lo <= d)%Z.
Proof.
  intros Hlo Hr. destruct p as [a|m|m|g k|X e k]; simpl.
  - intros ->. split; [exact Hr|discriminate].
  - intros Hb. split; [lia|intros _; lia].
  - intros Hb. split; [lia|intros _; lia].
  - intros [Hb _]. split; [lia|intros _; lia].
  - intros [Hb _]. split; [lia|intros _; lia].
Qed.

Lemma thread_debt_bounds (g : goroutine) (d : Z) :
  thread_debt g d -> (0 <= d)%Z /\ (joined g = false -> 1 <= d)%Z.
Proof.
  destruct g as [p|cur body after|p]; simpl.
  - intros H. apply owes_bounds in H; [exact H|lia|lia].
  - destruct (is_ret after).
    + intros [H _]. apply owes_bounds in H; [|lia|lia].
      split; [exact (proj1 H)|discriminate].
    + intros [H _].
      assert (1 <= d)%Z; [|split; [lia|auto]].
      destruct cur as [a|m|m|g k|X e k]; simpl in H; lia.
  - intros H. apply owes_bounds in H; [|lia|lia].
    split; [exact (proj1 H)|discriminate].
Qed.

Lemma working_le_sum (l : list thread) (ds : list Z) :
  Forall2 (fun t d => thread_debt (code t) d) l ds ->
  (Z.of_nat (List.length (working l)) <= sumZ ds)%Z /\
  Forall (fun d => 0 <= d)%Z ds.
Proof.
  induction 1 as [|t d l ds Hd HF [IH1 IH2]]; unfold working, sumZ in *; simpl.
  - split; [lia|constructor].
  - destruct (@thread_debt_bounds _ _ Hd) as [H0 H1]. split.
    + destruct (joined (code t)); simpl; [lia|].
      specialize (H1 eq_refl). lia.
    + constructor; assumption.
Qed.

Lemma sumZ_ge_nth (ds : list Z) (i : nat) (d : Z) :
  Forall (fun d => 0 <= d)%Z ds -> nth_error ds i = Some d -> (d <= sumZ ds)%Z.
Proof.
  intros HF. revert i. induction HF as [|y ds Hy HF IH]; intros i.
  - destruct i; discriminate.
  - assert (0 <= sumZ ds)%Z.
    { clear IH. induction HF; unfold sumZ in *; simpl; lia. }
    destruct i as [|i]; simpl; unfold sumZ in *; simpl.
    + intros H0; inversion H0; subst. lia.
    + intros H0. apply IH in H0. lia.
Qed.

Lemma owes_next (A : Type) (lo hi : Z) (p : prog A) (d r : Z) :
  (0 <= lo)%Z -> (0 <= r)%Z ->
  owes lo hi p d (fun _ d' => d' = r) ->
  (0 <= d + match p with
            | Vis e _ => wg_delta e
            | _ => 0
            end)%Z.
Proof.
  intros Hlo Hr. destruct p as [a|m|m|g k|X e k]; simpl; try lia.
  intros [Hb Hk].
  destruct e; simpl; try lia.
  specialize (Hk tt). apply owes_bounds in Hk; simpl in Hk; lia.
Qed.

Lemma thread_debt_next (g : goroutine) (d : Z) :
  thread_debt g d -> (0 <= d + next_wg_delta g)%Z.
Proof.
  destruct g as [p|cur body after|p]; simpl.
  - apply owes_next; lia.
  - destruct (is_ret after); intros [H _]; revert H; apply owes_next; lia.
  - apply owes_next; lia.
Qed.

(** X9.  The wait group joins the workers.  In the process [execAgent]
    starts (the counter at one, for the accept loop), under any
    scheduling, the counter is never below the number of goroutines
    still at work: the accept loop until its deferred [Done] has run,
    and each connection handler until its final [Done].  So when the
    counter is zero, which is when [Wait] and [Stop] get past
    [a.wg.Wait()], the accept loop has returned and every connection
    handler has finished. *)
Theorem wait_group_joins (w : World) (s : System) :
  wg (agent w) = 1%Z ->
  reachable (execAgent w) s ->
  (Z.of_nat (List.length (working (pool s))) <= wg (agent (world s)))%Z /\
  (wg (agent (world s)) = 0%Z ->
   forall t, In t (pool s) -> joined (code t) = true).
Proof.
  intros Hwg Hr.
  destruct (wg_inv_reachable Hwg Hr) as (ds & HF & Hsum).
  destruct (working_le_sum HF) as [Hle _].
  split; [rewrite Hsum; exact Hle|].
  intros Hzero t Hin.
  destruct (joined (code t)) eqn:Hj; [reflexivity|exfalso].
  assert (Hw : In t (working (pool s))).
  { unfold working. apply filter_In. split; [exact Hin|]. now rewrite Hj. }
  destruct (working (pool s)); [contradiction|]. simpl in Hle. lia.
Qed.

(** X10.  The wait group never goes negative.  In the process
    [execAgent] starts, under any scheduling, the counter is at least
    zero and stays so through the next effect of every goroutine: no
    [a.wg.Done()] is one too many, so [Add] and [Done] never panic. *)
Theorem wait_group_never_negative (w : World) (s : System) :
  wg (agent w) = 1%Z ->
  reachable (execAgent w) s ->
  (0 <= wg (agent (world s)))%Z /\
  forall i t, nth_error (pool s) i = Some t ->
    (0 <= wg (agent (world s)) + next_wg_delta (code t))%Z.
Proof.
  intros Hwg Hr.
  destruct (wg_inv_reachable Hwg Hr) as (ds & HF & Hsum).
  destruct (working_le_sum HF) as [Hle Hpos].
  split; [lia|].
  intros i t Hi.
  destruct (@Forall2_nth _ _ _ _ _ _ _ HF Hi) as (d & Hd & Hdebt).
  pose proof (@sumZ_ge_nth _ _ _ Hpos Hd) as Hge.
  pose proof (@thread_debt_next _ _ Hdebt) as Hnext.
  lia.
Qed.

Lemma owes_zero_next (A : Type) (p p' : prog A) (d : Z) (h h' : bool)
      (w w' : World) :
  owes 0 0 p d (fun _ d' => d' = 0%Z) -> advance p h w = Next p' w' h' ->
  wg (agent w') = wg (agent w).
Proof.
  intros Ho Ha.
  assert (Hd : d = 0%Z) by (destruct p; simpl in Ho; lia).
  pose proof (@advance_next_owes _ _ _ _ _ _ _ _ _ _ _ Ho Ha) as Hn.
  destruct p' as [a|m|m|g k|X e k]; simpl in Hn; lia.
Qed.

Lemma joined_step_wg (g g' : goroutine) (h h' : bool) (w w' : World)
      (new : list thread) (d : Z) :
  thread_debt g d -> joined g = true ->
  step_goroutine g h w = Moved g' w' h' new ->
  wg (agent w') = wg (agent w).
Proof.
  destruct g as [cur|cur body after|cur]; simpl.
  - destruct cur; simpl; discriminate.
  - intros Hd Hret. rewrite Hret in Hd. destruct Hd as [Hc _].
    destruct (advance cur h w) as [p w1 h1|f p|a| |st w1] eqn:Ha;
      try discriminate.
    + intros H; inversion H; subst. eapply owes_zero_next; eauto.
    + intros H; inversion H; subst. reflexivity.
    + destruct a; intros H; inversion H; subst; reflexivity.
  - intros Hd _.
    destruct (advance cur h w) as [p w1 h1|f p|a| |st w1] eqn:Ha;
      try discriminate; intros H; inversion H; subst.
    + eapply owes_zero_next; eauto.
    + reflexivity.
Qed.

(** X11.  The join is final.  In the process [execAgent] starts, once
    the counter of the wait group is zero it stays zero whatever step
    the process takes next: after the accept loop and the handlers have
    been joined, no connection is accepted and no handler runs again. *)
Theorem wait_group_zero_is_final (w : World) (s s' : System) :
  wg (agent w) = 1%Z ->
  reachable (execAgent w) s ->
  wg (agent (world s)) = 0%Z ->
  sys_step s s' ->
  wg (agent (world s')) = 0%Z /\
  forall t, In t (pool s') -> joined (code t) = true.
Proof.
  intros Hwg Hr Hzero Hstep.
  assert (Hr' : reachable (execAgent w) s') by (eapply reach_step; eauto).
  destruct (wg_inv_reachable Hwg Hr) as (ds & HF & Hsum).
  destruct (wg_inv_reachable Hwg Hr') as (ds' & HF' & Hsum').
  destruct (working_le_sum HF') as [Hle' _].
  assert (Hall : forall t, In t (pool s) -> joined (code t) = true).
  { intros t Hin. destruct (joined (code t)) eqn:Hj; [reflexivity|exfalso].
    destruct (working_le_sum HF) as [Hle _].
    assert (Hw : In t (working (pool s))).
    { unfold working. apply filter_In. split; [exact Hin|]. now rewrite Hj. }
    destruct (working (pool s)); [contradiction|]. simpl in Hle. lia. }
  assert (Hz : wg (agent (world s')) = 0%Z).
  { destruct Hstep as [i s s' Hs|s _|s f _]; try exact Hzero.
    unfold sched in Hs. destruct (state s); try discriminate.
    destruct (nth_error (pool s) i) as [t|] eqn:Hi; try discriminate.
    destruct (step_goroutine (code t) (holds t) (world s))
      as [g w1 h new| |st w1] eqn:Hst; try discriminate;
      inversion Hs; subst; clear Hs; simpl in *.
    - destruct (@Forall2_nth _ _ _ _ _ _ _ HF Hi) as (d & Hd & Hdebt).
      pose proof (Hall t (nth_error_In _ _ Hi)) as Hj.
      rewrite (@joined_step_wg _ _ _ _ _ _ _ _ Hdebt Hj Hst). exact Hzero.
    - rewrite (@step_goroutine_dead_agent _ _ _ _ _ _ Hst). exact Hzero. }
  split; [exact Hz|].
  intros t Hin. destruct (joined (code t)) eqn:Hj; [reflexivity|exfalso].
  assert (Hw : In t (working (pool s'))).
  { unfold working. apply filter_In. split; [exact Hin|]. now rewrite Hj. }
  destruct (working (pool s')); [contradiction|]. simpl in Hle'. lia.
Qed.

End WaitGroup.

(** * Progress under the mutex *)

Section Progress.
Context `{Ext : Externals}.















End Progress.

(** * The agent on the sample process *)

Section Runs.
Import Sample.

Lemma good_world_loads : @key_loads soft good_world key_bytes.
Proof.
  exists "/data/tpm-ssh-agent", key_bytes, key_bytes. repeat split.
Qed.

Lemma tpm_down_world_loads : @key_loads soft tpm_down_world key_bytes.
Proof.
  exists "/data/tpm-ssh-agent", key_bytes, key_bytes. repeat split.
Qed.

(** [List] on the sample key file. *)
Lemma List_one_record_witness :
  mu (agent good_world) = false /\
  @run soft _ getAgentStorage good_world = Returned "/data/tpm-ssh-agent" good_world /\
  @run soft _ List good_world =
    Returned (Ok [mkAgentKey ecdsa key_bytes ""]) good_world.
Proof.
  split; [reflexivity|]. split; [reflexivity|].
  apply (proj1 (@List_one_record soft good_world "/data/tpm-ssh-agent"
                  eq_refl eq_refl)
           key_bytes key_bytes (mkPublicKey ecdsa key_bytes));
    reflexivity.
Defined.

(** The file is readable and its bytes deserialize, the deserialized key
    has no ssh public key, and [List] returns an error and no record. *)
Lemma List_fails_on_underivable_public_key :
  ~ @one_record_when_deserialized soft odd_key_world.
Proof.
  intros H.
  destruct (H "/data/tpm-ssh-agent" odd_key_bytes odd_key_bytes
              eq_refl eq_refl eq_refl eq_refl) as (rec & w' & Hrun).
  vm_compute in Hrun. discriminate Hrun.
Qed.

(** Signing with the stored key, and with another key. *)
Lemma SignWithFlags_match_witness :
  mu (agent good_world) = false /\
  @key_loads soft good_world key_bytes /\
  @run soft _ (SignWithFlags good_key message 0%Z) good_world =
    Returned (Ok (ecdsa, [x01; x2a; x68; x69])) good_world /\
  @run soft _ (SignWithFlags other_key message 0%Z) good_world =
    Returned (Err (errors_New "no private keys match the requested public key"))
             good_world.
Proof.
  split; [reflexivity|]. split; [exact good_world_loads|].
  destruct (@SignWithFlags_match soft good_world key_bytes good_key message 0%Z
              eq_refl good_world_loads) as (Heq & _ & _).
  destruct (@SignWithFlags_match soft good_world key_bytes other_key message 0%Z
              eq_refl good_world_loads) as (_ & Hne & _).
  split.
  - rewrite (Heq eq_refl). reflexivity.
  - apply Hne. discriminate.
Defined.

(** The stored key loads, the requested blob is the stored blob, the TPM
    is unreachable: no signature is returned. *)
Lemma SignWithFlags_match_without_signature :
  ~ @signature_iff_match soft good_key message 0%Z tpm_down_world.
Proof.
  intros H.
  destruct (H key_bytes eq_refl tpm_down_world_loads) as [_ Hback].
  destruct (Hback eq_refl) as (sig & w' & Hrun).
  vm_compute in Hrun. discriminate Hrun.
Qed.

Lemma key_operations_panic_without_home_witness :
  env homeless_world "XDG_DATA_HOME" = None /\
  home homeless_world = Err (errors_New "$HOME is not defined") /\
  @run soft _ List homeless_world = Panicked "$HOME is not defined" homeless_world /\
  @run soft _ (Sign good_key message) homeless_world =
    Panicked "$HOME is not defined" homeless_world.
Proof.
  split; [reflexivity|]. split; [reflexivity|].
  destruct (@key_operations_panic_without_home soft homeless_world
              (errors_New "$HOME is not defined") good_key message 0%Z
              eq_refl eq_refl) as (HL & HS & _).
  split; [exact HL|exact HS].
Defined.


Lemma serve_accept_error_witness :
  @handle soft _ ListenerAccept flaky_world = Done (Err eagain) good_world /\
  @run soft _ serve_body flaky_world =
    Returned Continue
      (emit (emit good_world
               (EvLog "Temporary Accept error, sleeping 1s: accept: resource temporarily unavailable"))
            (EvSleep 1000000000)).
Proof.
  split; [reflexivity|].
  exact (proj1 (proj1 (@serve_accept_error soft flaky_world good_world eagain
                         eq_refl) eq_refl)).
Defined.

(** An accept error that is not temporary, with the quit channel open:
    the process exits, whatever the fuel. *)
Example serve_fatal_accept (n : nat) :
  option_map verdict_of (@serve_loop soft (S n) crowded_world) =
  Some (Exits "Failed to accept connections: accept: too many open files in system").
Proof.
  reflexivity.
Qed.

(** C2.  Two SIGHUPs reach the process.  The signal loop runs [Stop]:
    it closes the quit channel and the listener, the accept loop returns,
    [Stop] prints and returns.  The signal loop then takes the second
    signal and runs [Stop] again, whose [close(a.quit)] panics: the
    process dies with "close of closed channel". *)
Theorem second_Stop_panics :
  state (@exec soft (firstn 13 two_sighups) (execAgent good_world)) = Alive /\
  out (world (@exec soft (firstn 13 two_sighups) (execAgent good_world))) =
    [EvPrint "stopped?"] /\
  quit (agent (world (@exec soft (firstn 13 two_sighups) (execAgent good_world))))
    = true /\
  state (@exec soft two_sighups (execAgent good_world)) =
    Crashed "close of closed channel".
Proof.
  repeat split.
Qed.

Lemma mutual_exclusion_witness :
  mu (agent busy_world) = false /\
  reachable (execAgent busy_world) (@exec soft contention (execAgent busy_world)) /\
  map holds (pool (@exec soft contention (execAgent busy_world))) =
    [false; false; false; true; false] /\
  forall i j ti tj,
    nth_error (pool (@exec soft contention (execAgent busy_world))) i = Some ti ->
    nth_error (pool (@exec soft contention (execAgent busy_world))) j = Some tj ->
    holds ti = true -> holds tj = true -> i = j.
Proof.
  assert (Hr : reachable (execAgent busy_world)
                         (@exec soft contention (execAgent busy_world))).
  { apply reachable_exec; [reflexivity|apply reach_init]. }
  split; [reflexivity|]. split; [exact Hr|]. split; [reflexivity|].
  exact (proj1 (@mutual_exclusion soft busy_world _ eq_refl Hr)).
Defined.

(** ** Runs for the further properties *)

Lemma Signers_result_witness :
  mu (agent good_world) = false /\
  @run soft _ getAgentStorage good_world = Returned "/data/tpm-ssh-agent" good_world /\
  @run soft _ Signers good_world = Returned (Ok [key_bytes]) good_world.
Proof.
  split; [reflexivity|]. split; [reflexivity|].
  apply (proj1 (@Signers_result soft good_world "/data/tpm-ssh-agent"
                  eq_refl eq_refl) key_bytes key_bytes key_bytes);
    reflexivity.
Defined.

Lemma SignWithFlags_load_failure_witness :
  mu (agent empty_key_world) = false /\
  @run soft _ getAgentStorage empty_key_world =
    Returned "/data/tpm-ssh-agent" empty_key_world /\
  @run soft _ (SignWithFlags good_key message 0%Z) empty_key_world =
    Returned (Err (errors_New "unexpected EOF")) empty_key_world.
Proof.
  split; [reflexivity|]. split; [reflexivity|].
  apply (proj1 (proj2 (@SignWithFlags_load_failure soft empty_key_world
                         "/data/tpm-ssh-agent" good_key message 0%Z
                         eq_refl eq_refl))
           [] (errors_New "unexpected EOF")); reflexivity.
Defined.

Lemma listed_key_signs_witness :
  exists rec,
    @run soft _ List good_world = Returned (Ok [rec]) good_world /\
    @run soft _ (SignWithFlags (mkPublicKey (Format rec) (Blob rec)) message 0%Z)
         good_world =
    Returned (Ok (ecdsa, [x01; x2a; x68; x69])) good_world.
Proof.
  exact (@listed_key_signs soft good_world "/data/tpm-ssh-agent" key_bytes
           key_bytes (mkPublicKey ecdsa key_bytes) key_bytes message 0%Z
           eq_refl eq_refl eq_refl eq_refl eq_refl eq_refl eq_refl).
Defined.


Lemma only_key_file_is_read_witness :
  mu (agent good_world) = false /\
  @run soft _ getAgentStorage good_world = Returned "/data/tpm-ssh-agent" good_world /\
  scribbled_disk "/data/tpm-ssh-agent/ssh.key" =
    files good_world "/data/tpm-ssh-agent/ssh.key" /\
  scribbled_disk "/data/other" <> files good_world "/data/other" /\
  verdict_of (@run soft _ List (set_files good_world scribbled_disk)) =
    verdict_of (@run soft _ List good_world).
Proof.
  split; [reflexivity|]. split; [reflexivity|]. split; [reflexivity|].
  split; [discriminate|].
  exact (proj1 (@only_key_file_is_read soft good_world "/data/tpm-ssh-agent"
                  scribbled_disk good_key message 0%Z eq_refl eq_refl eq_refl)).
Defined.


Lemma serve_accept_connection_witness :
  (0 <= wg (agent busy_world))%Z /\
  exists w',
    @run soft _ serve_body busy_world = Returned Continue w' /\
    wg (agent w') = 2%Z /\
    started w' = [GoServeConn (@mkConn soft [@ReqList soft] io_EOF)].
Proof.
  split; [discriminate|].
  eexists. split.
  - exact (proj1 (proj1 (@serve_accept_connection soft busy_world
                           ltac:(discriminate)) _ _ eq_refl)).
  - split; reflexivity.
Defined.

Lemma shutdown_never_fatal_witness :
  l_closed (listener (agent good_world)) = false /\
  reachable (execAgent good_world)
            (@exec soft (firstn 4 two_sighups) (execAgent good_world)) /\
  l_closed (listener (agent (world
     (@exec soft (firstn 4 two_sighups) (execAgent good_world))))) = true /\
  quit (agent (world
     (@exec soft (firstn 4 two_sighups) (execAgent good_world)))) = true.
Proof.
  assert (Hr : reachable (execAgent good_world)
                 (@exec soft (firstn 4 two_sighups) (execAgent good_world))).
  { apply reachable_exec; [reflexivity|apply reach_init]. }
  split; [reflexivity|]. split; [exact Hr|]. split; [reflexivity|].
  exact (proj1 (@shutdown_never_fatal soft good_world _ eq_refl Hr eq_refl)).
Defined.

Lemma wait_group_joins_witness :
  wg (agent good_world) = 1%Z /\
  reachable (execAgent good_world)
            (@exec soft (firstn 13 two_sighups) (execAgent good_world)) /\
  wg (agent (world
     (@exec soft (firstn 13 two_sighups) (execAgent good_world)))) = 0%Z /\
  forall t,
    In t (pool (@exec soft (firstn 13 two_sighups) (execAgent good_world))) ->
    joined (code t) = true.
Proof.
  assert (Hr : reachable (execAgent good_world)
                 (@exec soft (firstn 13 two_sighups) (execAgent good_world))).
  { apply reachable_exec; [reflexivity|apply reach_init]. }
  split; [reflexivity|]. split; [exact Hr|]. split; [reflexivity|].
  exact (proj2 (@wait_group_joins soft good_world _ eq_refl Hr) eq_refl).
Defined.

Lemma wait_group_never_negative_witness :
  wg (agent busy_world) = 1%Z /\
  reachable (execAgent busy_world) (@exec soft contention (execAgent busy_world)) /\
  (0 <= wg (agent (world (@exec soft contention (execAgent busy_world)))))%Z.
Proof.
  assert (Hr : reachable (execAgent busy_world)
                 (@exec soft contention (execAgent busy_world))).
  { apply reachable_exec; [reflexivity|apply reach_init]. }
  split; [reflexivity|]. split; [exact Hr|].
  exact (proj1 (@wait_group_never_negative soft busy_world _ eq_refl Hr)).
Defined.

Lemma wait_group_zero_is_final_witness :
  wg (agent good_world) = 1%Z /\
  reachable (execAgent good_world)
            (@exec soft (firstn 13 two_sighups) (execAgent good_world)) /\
  wg (agent (world
     (@exec soft (firstn 13 two_sighups) (execAgent good_world)))) = 0%Z /\
  wg (agent (world (deliver_SIGHUP
     (@exec soft (firstn 13 two_sighups) (execAgent good_world))))) = 0%Z.
Proof.
  assert (Hr : reachable (execAgent good_world)
                 (@exec soft (firstn 13 two_sighups) (execAgent good_world))).
  { apply reachable_exec; [reflexivity|apply reach_init]. }
  assert (Hs : sys_step (@exec soft (firstn 13 two_sighups) (execAgent good_world))
                        (deliver_SIGHUP
                           (@exec soft (firstn 13 two_sighups) (execAgent good_world)))).
  { apply step_signal. reflexivity. }
  split; [reflexivity|]. split; [exact Hr|]. split; [reflexivity|].
  exact (proj1 (@wait_group_zero_is_final soft good_world _ _ eq_refl Hr eq_refl Hs)).
Defined.


Lemma Stop_shuts_idle_agent_down_witness :
  quit (agent busy_world) = false /\
  l_closed (listener (agent busy_world)) = false /\
  wg (agent busy_world) = 1%Z /\
  sighup busy_world = 0 /\
  state (@exec soft stop_idle (execAgent busy_world)) = Alive /\
  started (world (@exec soft stop_idle (execAgent busy_world))) =
    [GoSignalLoop; GoServe].
Proof.
  do 4 (split; [reflexivity|]).
  destruct (@Stop_shuts_idle_agent_down soft busy_world
              eq_refl eq_refl eq_refl eq_refl) as (Ha & _ & _ & Hst & _).
  split; [exact Ha|exact Hst].
Defined.


End Runs.
